(** * ifs_pascal: the image IFS renderer of [Image_IFS.py]

    A shallow embedding of [ifs_pascal/Image_IFS.py]: the class [Image_IFS]
    (constructor, [add_function], [iterate]) and the two generators
    [n_sierpinski] and [polygon_ifs], together with the parts of Python's
    numbers and of the imaging library that the code calls. *)

From Stdlib Require Import ZArith List Bool Lia Floats.
Import ListNotations.

Set Implicit Arguments.

Local Open Scope Z_scope.

(** ** Exceptions and results *)

Module Py.

(** The built-in exceptions that the modelled calls can raise. *)
Inductive exn : Type :=
| ValueError
| OverflowError
| ZeroDivisionError
| RecursionError.

(** A call either returns a value or raises. *)
Inductive result (A : Type) : Type :=
| Ok (a : A)
| Raise (e : exn).

Arguments Ok {A} a.
Arguments Raise {A} e.

Definition bind {A B : Type} (m : result A) (k : A -> result B) : result B :=
  match m with
  | Ok a => k a
  | Raise e => Raise e
  end.

End Py.

Import Py.

Notation "x <- m ;; k" := (bind m (fun x => k))
  (at level 61, m at next level, right associativity).

(** ** Python numbers

    Python's [float] is the binary64 format, which is Rocq's primitive
    [float]; Python's [int] is [Z]. *)

Module Num.

(** [float(z)] for an int: the nearest binary64 value, ties to even.  (CPython
    raises [OverflowError] once the magnitude reaches 2^1024; image sides and
    loop counters stay far below, and the conversion is kept total here.) *)
Definition float_of_int (z : Z) : float :=
  SF2Prim (binary_normalize prec emax z 0 false).

(** [a / b] on two ints is true division: the quotient of the two integers
    rounded once to binary64.  The quotient is computed with more than 64
    significant bits and a sticky bit for the remainder, then rounded. *)
Definition round_ratio (a b : Z) : float :=
  let neg := xorb (a <? 0) (b <? 0) in
  let na := Z.abs a in
  let nb := Z.abs b in
  if na =? 0 then (if neg then neg_zero else zero)
  else
    let k := Z.max 0 (66 + Z.log2 nb - Z.log2 na) in
    let num := Z.shiftl na k in
    let q := num / nb in
    let sticky := if num mod nb =? 0 then 0 else 1 in
    let m := 2 * q + sticky in
    SF2Prim (binary_normalize prec emax (if neg then - m else m) (- k - 1) false).

Definition int_truediv (a b : Z) : result float :=
  if b =? 0 then Raise ZeroDivisionError else Ok (round_ratio a b).

(** [x / b] with a float [x] and an int [b]: [b] is converted first. *)
Definition float_truediv_int (x : float) (b : Z) : result float :=
  if b =? 0 then Raise ZeroDivisionError
  else Ok (PrimFloat.div x (float_of_int b)).

(** [int(x)] on a float truncates toward zero; it raises on [nan] and on the
    infinities. *)
Definition int_of_float (x : float) : result Z :=
  match Prim2SF x with
  | S754_nan => Raise ValueError
  | S754_infinity _ => Raise OverflowError
  | S754_zero _ => Ok 0
  | S754_finite s m e =>
      let a := Z.shiftl (Zpos m) e in
      Ok (if s then - a else a)
  end.

(** The built-in [round(x)] with one argument: the nearest int, ties to the
    even one.  The source never calls it; it is here because the
    specification words the pixel sizes with it. *)
Definition round_float (x : float) : result Z :=
  match Prim2SF x with
  | S754_nan => Raise ValueError
  | S754_infinity _ => Raise OverflowError
  | S754_zero _ => Ok 0
  | S754_finite s m e =>
      let a :=
        if 0 <=? e then Z.shiftl (Zpos m) e
        else
          let d := Z.shiftl 1 (- e) in
          let q := Zpos m / d in
          let r := Zpos m mod d in
          match 2 * r ?= d with
          | Lt => q
          | Gt => q + 1
          | Eq => if Z.even q then q else q + 1
          end in
      Ok (if s then - a else a)
  end.

(** A contraction's components are whatever the caller passed: ints or
    floats. *)
Inductive number : Type :=
| PyInt (z : Z)
| PyFloat (x : float).

(** [a * n] with [n] an int. *)
Definition mul_int (a : number) (n : Z) : number :=
  match a with
  | PyInt z => PyInt (z * n)
  | PyFloat x => PyFloat (PrimFloat.mul x (float_of_int n))
  end.

(** The built-in [int(a)]. *)
Definition int (a : number) : result Z :=
  match a with
  | PyInt z => Ok z
  | PyFloat x => int_of_float x
  end.

(** The built-in [round(a)]. *)
Definition round (a : number) : result Z :=
  match a with
  | PyInt z => Ok z
  | PyFloat x => round_float x
  end.

End Num.

Import Num.

(** ** The imaging library

    The part of the imaging library that [Image_IFS.py] calls, on RGBA
    images: [Image.new], [transpose(FLIP_TOP_BOTTOM)], [resize], and [paste]
    with and without a mask. *)

Module PIL.

(** One RGBA pixel; each band is a byte. *)
Record pixel : Type := RGBA { red : Z; green : Z; blue : Z; alpha : Z }.

(** An image: its size and its pixels, row by row from the top. *)
Record Image : Type := mkImage {
  width : nat;
  height : nat;
  rows : list (list pixel)
}.

Definition size (im : Image) : Z * Z :=
  (Z.of_nat (width im), Z.of_nat (height im)).

Definition getpixel (im : Image) (x y : nat) : pixel :=
  nth x (nth y (rows im) []) (RGBA 0 0 0 0).

(** The image of the given size whose pixel at [(x, y)] is [f x y]. *)
Definition build (w h : nat) (f : nat -> nat -> pixel) : Image :=
  mkImage w h (map (fun y => map (fun x => f x y) (seq 0 w)) (seq 0 h)).

(** The pixel rows really have the recorded size. *)
Definition well_sized (im : Image) : Prop :=
  length (rows im) = height im /\
  Forall (fun row => length row = width im) (rows im).

(** Every band of every pixel is a byte. *)
Definition byte_range (v : Z) : Prop := 0 <= v <= 255.

Definition pixel_ok (p : pixel) : Prop :=
  byte_range (red p) /\ byte_range (green p) /\
  byte_range (blue p) /\ byte_range (alpha p).

Definition all_pixels (P : pixel -> Prop) (im : Image) : Prop :=
  Forall (Forall P) (rows im).

(** [Image.new('RGBA', size, color)]. *)
Definition new (sz : Z * Z) (color : pixel) : result Image :=
  let '(w, h) := sz in
  if (w <? 0) || (h <? 0) then Raise ValueError
  else Ok (build (Z.to_nat w) (Z.to_nat h) (fun _ _ => color)).

(** [im.transpose(Image.FLIP_TOP_BOTTOM)]: the rows in reverse order. *)
Definition transpose_FLIP_TOP_BOTTOM (im : Image) : Image :=
  mkImage (width im) (height im) (rev (rows im)).

(** The resampling filter of [resize]: for a source image and a target size,
    the pixel at each target position. *)
Class Resampler : Type := { sample : Image -> nat -> nat -> nat -> nat -> pixel }.

(** The NEAREST filter reads the source pixel under the centre of the target
    pixel. *)
Definition nearest_index (src dst i : nat) : nat :=
  Nat.div ((2 * i + 1) * src) (2 * dst).

#[export] Instance NEAREST : Resampler :=
  {| sample im w h x y :=
       getpixel im (nearest_index (width im) w x)
                   (nearest_index (height im) h y) |}.

(** The library passes sizes and boxes to its C code as C ints. *)
Definition c_int (v : Z) : bool := (- 2 ^ 31 <=? v) && (v <? 2 ^ 31).

(** [im.copy()]: a new image with the pixels of [im].  On an image whose
    rows have the recorded size it is the same value. *)
Definition copy (im : Image) : Image :=
  build (width im) (height im) (getpixel im).

(** [im.resize(size)].  When the size asked for is the size of the image the
    call returns a copy, whatever the size is.  Otherwise the size goes to
    the C code: a side that is no C int raises [OverflowError], a side below
    1 raises [ValueError], and the result is a new image of the requested
    size. *)
Definition resize {R : Resampler} (im : Image) (sz : Z * Z) : result Image :=
  let '(w, h) := sz in
  if (Z.of_nat (width im) =? w) && (Z.of_nat (height im) =? h)
  then Ok (copy im)
  else if negb (c_int w && c_int h) then Raise OverflowError
  else if (w <? 1) || (h <? 1) then Raise ValueError
  else Ok (build (Z.to_nat w) (Z.to_nat h)
                 (sample im (Z.to_nat w) (Z.to_nat h))).

(** The pixels after [dst.paste(src, (x0, y0))]: the pixels of [src] replace
    those of [dst] in the box whose upper left corner is [(x0, y0)]; what
    falls outside [dst] is clipped.  The call itself is [paste_call]
    below. *)
Definition paste (dst src : Image) (box : Z * Z) : Image :=
  let '(x0, y0) := box in
  build (width dst) (height dst) (fun x y =>
    let sx := Z.of_nat x - x0 in
    let sy := Z.of_nat y - y0 in
    if (0 <=? sx) && (sx <? Z.of_nat (width src)) &&
       (0 <=? sy) && (sy <? Z.of_nat (height src))
    then getpixel src (Z.to_nat sx) (Z.to_nat sy)
    else getpixel dst x y).

(** [dst.paste(src, (x0, y0))], the call: the box is completed with the
    size of [src] and goes to the C code, which raises [OverflowError] when
    one of its four edges is no C int. *)
Definition paste_call (dst src : Image) (box : Z * Z) : result Image :=
  let '(x0, y0) := box in
  let x1 := x0 + Z.of_nat (width src) in
  let y1 := y0 + Z.of_nat (height src) in
  if c_int x0 && c_int y0 && c_int x1 && c_int y1
  then Ok (paste dst src box)
  else Raise OverflowError.

(** The byte arithmetic of a masked paste: each band of the destination
    becomes the mix of destination and source weighted by the mask, divided
    by 255 with rounding. *)
Definition div255 (a : Z) : Z :=
  let tmp := a + 128 in
  Z.shiftr (Z.shiftr tmp 8 + tmp) 8.

Definition blend8 (mask in1 in2 : Z) : Z :=
  div255 (in1 * (255 - mask) + in2 * mask).

Definition blend (mask : Z) (out inp : pixel) : pixel :=
  RGBA (blend8 mask (red out) (red inp))
       (blend8 mask (green out) (green inp))
       (blend8 mask (blue out) (blue inp))
       (blend8 mask (alpha out) (alpha inp)).

(** [dst.paste(src, mask=mask)] with an RGBA mask: the box is the whole of
    [src] at the origin.  Where the mask is 255 the source is copied, where
    it is 0 the destination stays, and values in between mix the two, their
    alpha bands included. *)
Definition paste_mask (dst src mask : Image) : Image :=
  build (width dst) (height dst) (fun x y =>
    if (x <? width src)%nat && (y <? height src)%nat
    then blend (alpha (getpixel mask x y)) (getpixel dst x y) (getpixel src x y)
    else getpixel dst x y).

End PIL.

Import PIL.

(** ** The renderer

    No call of the class changes an image in place once it is stored in the
    object: [transpose] and [resize] return new images, and the three pastes
    write into images that the same pass has just created.  So the seed and
    the buffer are values here. *)

(** A contraction as [add_function] stores it:
    [(scale, (x_offset, y_offset))]. *)
Definition contraction : Type := (number * (number * number))%type.

Record Image_IFS : Type := mkImage_IFS {
  seed_image : Image;
  image : Image;
  image_size : Z;
  center_origin : bool;
  functions : list contraction
}.

(** What a method call leaves behind: the object after a normal return, or
    the exception together with the object as the call left it. *)
Inductive outcome : Type :=
| Returned (self : Image_IFS)
| Raised (e : exn) (self : Image_IFS).

Definition object_after (o : outcome) : Image_IFS :=
  match o with
  | Returned self => self
  | Raised _ self => self
  end.

Definition set_image (self : Image_IFS) (im : Image) : Image_IFS :=
  mkImage_IFS (seed_image self) im (image_size self) (center_origin self)
              (functions self).

Definition transparent : pixel := RGBA 0 0 0 0.
Definition opaque_black : pixel := RGBA 0 0 0 255.
Definition opaque_white : pixel := RGBA 255 255 255 255.

(** [_default_seed(image_size)]. *)
Definition _default_seed (image_size : Z) : result Image :=
  new (image_size, image_size) opaque_white.

(** ** The interpreter's stack

    [iterate] calls itself once per pass, and CPython raises
    [RecursionError] when the calls nest beyond its recursion limit (1000
    frames unless the client changed it).  [recursion_room] is the number of
    calls of [iterate] that can still nest below a call the client makes:
    the limit, less the frames in use at the client's call and those that
    the library calls of a nested call need. *)
Class Stack : Type := { recursion_room : nat }.

(** The stack of the examples: about what the default limit leaves to a
    client at module level.  The exact figure depends on the versions of the
    interpreter and of the library; the theorems hold for every value. *)
#[export] Instance module_level : Stack := {| recursion_room := 990 |}.

Section Renderer.

Context {R : Resampler} {K : Stack}.

(** [Image_IFS.__init__]. *)
Definition init (seed : option Image) (image_size : Z) (center_origin : bool)
  : result Image_IFS :=
  seed_image <- match seed with
                | None => _default_seed image_size
                | Some im => resize im (image_size, image_size)
                end ;;
  Ok (mkImage_IFS seed_image seed_image image_size center_origin []).

(** [Image_IFS.add_function]. *)
Definition add_function (scale : number) (translation : number * number)
    (self : Image_IFS) : outcome :=
  Returned (mkImage_IFS (seed_image self) (image self) (image_size self)
                        (center_origin self)
                        (functions self ++ [(scale, translation)])).

(** The side, in pixels, of the copy made for a contraction: line 119. *)
Definition scaled_side (image_size : Z) (c : contraction) : result Z :=
  int (mul_int (fst c) image_size).

(** Where the copy is pasted: lines 123 to 128. *)
Definition placement (image_size : Z) (center_origin : bool) (scale : Z)
    (c : contraction) : result (Z * Z) :=
  let x_offset := if center_origin then scale else 0 in
  let y_offset := if center_origin then scale else 0 in
  dx <- int (mul_int (fst (snd c)) image_size) ;;
  let x_offset := x_offset + dx in
  dy <- int (mul_int (snd (snd c)) image_size) ;;
  let y_offset := y_offset + dy in
  Ok (x_offset, y_offset).

(** The body of the loop over the contractions: lines 119 to 136. *)
Definition apply_contraction (image_size : Z) (center_origin : bool)
    (start_image new_image : Image) (c : contraction) : result Image :=
  scale <- scaled_side image_size c ;;
  current_image <- resize start_image (scale, scale) ;;
  offset <- placement image_size center_origin scale c ;;
  transparency <- new (image_size, image_size) transparent ;;
  transparency <- paste_call transparency current_image offset ;;
  Ok (paste_mask new_image transparency transparency).

(** The loop over [self.functions]: line 118. *)
Fixpoint apply_contractions (image_size : Z) (center_origin : bool)
    (start_image new_image : Image) (fs : list contraction) : result Image :=
  match fs with
  | [] => Ok new_image
  | c :: fs' =>
      new_image' <- apply_contraction image_size center_origin
                                      start_image new_image c ;;
      apply_contractions image_size center_origin start_image new_image' fs'
  end.

(** One pass of the branch [n_iterations > 0], up to the assignment of
    [self.image]: lines 106 to 138. *)
Definition step (first_call : bool) (self : Image_IFS) : result Image :=
  let image_size := image_size self in
  let start_image :=
    if first_call then transpose_FLIP_TOP_BOTTOM (image self)
    else image self in
  new_image <- new (image_size, image_size) transparent ;;
  apply_contractions image_size (center_origin self) start_image new_image
                     (functions self).

(** The branch [n_iterations == 0 and first_call == False]: lines 143 to
    150. *)
Definition finalize (self : Image_IFS) : outcome :=
  let image_size := image_size self in
  match new (image_size, image_size) opaque_black with
  | Raise e => Raised e self
  | Ok background =>
      let background := paste_mask background (image self) (image self) in
      let background := transpose_FLIP_TOP_BOTTOM background in
      Returned (set_image self background)
  end.

(** [iterate] calls itself with [n_iterations - 1], on line 141, after the
    pass has assigned [self.image]; the recursion is on the number of passes
    left.  [room] is the number of calls that can still nest below this one:
    when none is left, the call of line 141 raises [RecursionError] and the
    object keeps the buffer of the pass just made. *)
Fixpoint iterate_passes (room passes : nat) (first_call : bool)
    (self : Image_IFS) {struct passes} : outcome :=
  match passes with
  | O => if first_call then Returned self else finalize self
  | S passes' =>
      match step first_call self with
      | Raise e => Raised e self
      | Ok new_image =>
          let self := set_image self new_image in
          match room with
          | O => Raised RecursionError self
          | S room' => iterate_passes room' passes' false self
          end
      end
  end.

(** [Image_IFS.iterate] with [room] calls left below it.  A negative
    [n_iterations] passes neither test of the source and the call does
    nothing; from 0 on, the call makes a pass and calls itself while
    [n_iterations] is positive, and then reaches the test for the last step.
    Lemma [iterate_unfold] below gives the same function in the shape of the
    source. *)
Definition iterate_within (room : nat) (n_iterations : Z) (first_call : bool)
    (self : Image_IFS) : outcome :=
  if n_iterations <? 0 then Returned self
  else iterate_passes room (Z.to_nat n_iterations) first_call self.

(** [Image_IFS.iterate], called by the client. *)
Definition iterate (n_iterations : Z) (first_call : bool) (self : Image_IFS)
  : outcome :=
  iterate_within recursion_room n_iterations first_call self.

(** A call made on the object a previous call left. *)
Definition and_then (o : outcome) (k : Image_IFS -> outcome) : outcome :=
  match o with
  | Returned self => k self
  | Raised e self => Raised e self
  end.

End Renderer.

(** ** The generators *)

(** [range(a, b)] on ints. *)
Definition range (a b : Z) : list Z :=
  map (fun k => a + Z.of_nat k) (seq 0 (Z.to_nat (b - a))).

(** A [for] loop whose body updates the loop's state and may raise. *)
Fixpoint for_each {A S : Type} (xs : list A) (body : A -> S -> result S)
    (s : S) : result S :=
  match xs with
  | [] => Ok s
  | x :: xs' => s' <- body x s ;; for_each xs' body s'
  end.

(** A method call inside a function: an exception leaves the function. *)
Definition called (o : outcome) : result Image_IFS :=
  match o with
  | Returned self => Ok self
  | Raised e _ => Raise e
  end.

(** What [polygon_ifs] imports from [math]. *)
Class MathLib : Type := {
  cos : float -> float;
  sin : float -> float;
  pi : float
}.

Section Generators.

Context {R : Resampler} {M : MathLib}.

(** [n_sierpinski]. *)
Definition n_sierpinski (seed_image : option Image) (image_size : Z) (n : Z)
  : result Image_IFS :=
  n_sierpinski <- init seed_image image_size false ;;
  scale <- int_truediv 1 n ;;
  let n2 := 2 * n in
  let sqrt3 := PrimFloat.sqrt (float_of_int 3) in
  for_each (range 0 n) (fun i n_sierpinski =>
    let isqrt3 := PrimFloat.mul (float_of_int i) sqrt3 in
    for_each (range 0 (n - i)) (fun j n_sierpinski =>
      x_offset <- int_truediv (i + 2 * j) n2 ;;
      y_offset <- float_truediv_int isqrt3 n2 ;;
      called (add_function (PyFloat scale)
                           (PyFloat x_offset, PyFloat y_offset)
                           n_sierpinski))
      n_sierpinski)
    n_sierpinski.

(** [polygon_ifs]. *)
Definition polygon_ifs (seed_image : option Image) (image_size : Z)
    (n_vertices : Z) (include_center : bool) : result Image_IFS :=
  polygon_ifs <- init seed_image image_size true ;;
  scale <- int_truediv 2 n_vertices ;;
  let omega := PrimFloat.mul pi scale in
  polygon_ifs <-
    for_each (range 0 n_vertices) (fun k polygon_ifs =>
      let angle := PrimFloat.mul omega (float_of_int k) in
      called (add_function (PyFloat scale)
                           (PyFloat (PrimFloat.mul scale (cos angle)),
                            PyFloat (PrimFloat.mul scale (sin angle)))
                           polygon_ifs))
      polygon_ifs ;;
  if include_center
  then called (add_function (PyFloat scale) (PyInt 0, PyInt 0) polygon_ifs)
  else Ok polygon_ifs.

End Generators.

(** The scale of a contraction. *)
Definition scale_of (c : contraction) : number := fst c.

(** An instance of [MathLib] to run [polygon_ifs] on: cosine and sine by
    their power series cut after 40 terms, and the binary64 value nearest to
    pi.  The library's own functions agree with these up to rounding. *)
Fixpoint power_series (x2 term : float) (k : Z) (terms : nat) : float :=
  match terms with
  | O => PrimFloat.zero
  | S terms' =>
      let next :=
        PrimFloat.opp
          (PrimFloat.div (PrimFloat.mul term x2)
                         (float_of_int ((k + 1) * (k + 2)))) in
      PrimFloat.add term (power_series x2 next (k + 2) terms')
  end.

#[export] Instance series_math : MathLib :=
  {| cos x := power_series (PrimFloat.mul x x) PrimFloat.one 0 40;
     sin x := power_series (PrimFloat.mul x x) x 1 40;
     pi := 0x1.921fb54442d18p+1%float |}.

(** ** Sequences of calls *)

(** The calls a client makes on a renderer once it is built. *)
Inductive call : Type :=
| Add_function (scale : number) (translation : number * number)
| Iterate (n_iterations : Z) (first_call : bool).

Definition perform {R : Resampler} {K : Stack} (c : call) (self : Image_IFS)
  : outcome :=
  match c with
  | Add_function scale translation => add_function scale translation self
  | Iterate n first_call => iterate n first_call self
  end.

(** The object after a sequence of calls, whether they returned or raised. *)
Definition perform_all {R : Resampler} {K : Stack} (cs : list call)
    (self : Image_IFS)
  : Image_IFS :=
  fold_left (fun self c => object_after (perform c self)) cs self.

(** The buffer is a square of [n] by [n] pixels. *)
Definition is_square (n : Z) (im : Image) : Prop :=
  size im = (n, n) /\ well_sized im.

(** ** Predicates of the statements *)

(** What a call of [iterate] keeps: every attribute but the buffer. *)
Definition same_but_image (a b : Image_IFS) : Prop :=
  seed_image b = seed_image a /\ image_size b = image_size a /\
  center_origin b = center_origin a /\ functions b = functions a.

(** ** Renderers and images of the examples *)



(** A renderer just built on the default white seed, 2 by 2. *)
Definition white2 : Image := build 2 2 (fun _ _ => opaque_white).

Definition renderer2 : Image_IFS := mkImage_IFS white2 white2 2 false [].

(** A seed with a transparent left column and a white right column. *)
Definition half_seed : Image :=
  mkImage 2 2 [[transparent; opaque_white]; [transparent; opaque_white]].

(** Two contractions of scale 1: one in place, one moved half a side to the
    right. *)
Definition overlapping : list contraction :=
  [(PyFloat 1, (PyInt 0, PyInt 0)); (PyFloat 1, (PyFloat 0.5, PyInt 0))].

Definition black2 : Image := build 2 2 (fun _ _ => opaque_black).

Definition black_white2 : Image :=
  mkImage 2 2 [[opaque_black; opaque_white]; [opaque_black; opaque_white]].

(** A seed of one pixel, white and half transparent. *)
Definition translucent_seed : Image := mkImage 1 1 [[RGBA 255 255 255 128]].

(** [z] is the float [x] cut toward zero: [x] is finite, [z] has its sign,
    and the magnitude [q] of [z] is the integer part of the magnitude
    [m * 2^e] of [x]. *)
Definition float_cut (x : float) (z : Z) : Prop :=
  match Prim2SF x with
  | S754_zero _ => z = 0
  | S754_finite s m e =>
      exists q,
        z = (if s then - q else q) /\ 0 <= q /\
        if 0 <=? e then q = Zpos m * 2 ^ e
        else q * 2 ^ (- e) <= Zpos m < (q + 1) * 2 ^ (- e)
  | S754_nan | S754_infinity _ => False
  end.

(** [z] is the number [a] cut toward zero. *)
Definition cut_toward_zero (a : number) (z : Z) : Prop :=
  match a with
  | PyInt v => z = v
  | PyFloat x => float_cut x z
  end.

(** A renderer of side 3 with the one contraction [(0.5, (0.5, 0.5))]. *)
Definition half_half : contraction :=
  (PyFloat 0.5, (PyFloat 0.5, PyFloat 0.5)).

Definition white3 : Image := build 3 3 (fun _ _ => opaque_white).

Definition renderer3 : Image_IFS :=
  mkImage_IFS white3 white3 3 false [half_half].

(** The canvas after one pass on [renderer3]: one white pixel, at (1, 1). *)
Definition centre_dot3 : Image :=
  mkImage 3 3 [[transparent; transparent; transparent];
               [transparent; opaque_white; transparent];
               [transparent; transparent; transparent]].

(** The object with further contractions at the end of its list. *)
Definition push_all (cs : list contraction) (self : Image_IFS) : Image_IFS :=
  mkImage_IFS (seed_image self) (image self) (image_size self)
              (center_origin self) (functions self ++ cs).

(** The contractions [n_sierpinski] adds for its row [i]. *)
Definition sierpinski_row (n i : Z) : list contraction :=
  map (fun j =>
         (PyFloat (round_ratio 1 n),
          (PyFloat (round_ratio (i + 2 * j) (2 * n)),
           PyFloat (PrimFloat.div
                      (PrimFloat.mul (float_of_int i)
                                     (PrimFloat.sqrt (float_of_int 3)))
                      (float_of_int (2 * n))))))
      (range 0 (n - i)).

(** The contractions [polygon_ifs] adds for the vertices. *)
Definition polygon_vertices {M : MathLib} (n_vertices : Z)
  : list contraction :=
  let scale := round_ratio 2 n_vertices in
  map (fun k =>
         let angle :=
           PrimFloat.mul (PrimFloat.mul pi scale) (float_of_int k) in
         (PyFloat scale,
          (PyFloat (PrimFloat.mul scale (cos angle)),
           PyFloat (PrimFloat.mul scale (sin angle)))))
      (range 0 n_vertices).

Definition white4 : Image := build 4 4 (fun _ _ => opaque_white).

(** A pixel that is fully transparent or fully opaque. *)
Definition binary_alpha (p : pixel) : Prop :=
  pixel_ok p /\ (alpha p = 0 \/ alpha p = 255).

Definition opaque (p : pixel) : Prop := alpha p = 255.

(** A filter that only ever copies pixels of its source, as NEAREST does. *)
Definition copies_pixels (R : Resampler) : Prop :=
  forall im w h x y, exists x' y', sample im w h x y = getpixel im x' y'.

(** ** Predicates of the further properties *)

(** A contraction that a pass can apply to the buffer [start] on a side of
    [n] pixels: its three products convert to ints; the side of the copy is
    the side of the buffer, or it is at least one pixel and a C int; and the
    four edges of the box where the copy is pasted are C ints. *)
Definition usable (start : Image) (n : Z) (co : bool) (c : contraction)
  : Prop :=
  exists side dx dy,
    scaled_side n c = Ok side /\
    int (mul_int (fst (snd c)) n) = Ok dx /\
    int (mul_int (snd (snd c)) n) = Ok dy /\
    (size start = (side, side) \/ 1 <= side < 2 ^ 31) /\
    let base := if co then side else 0 in
    c_int (base + dx) = true /\ c_int (base + dy) = true /\
    c_int (base + dx + side) = true /\ c_int (base + dy + side) = true.

(** The point [(x, y)] lies in the box of side [side] whose corner is
    [(ox, oy)]. *)
Definition in_box (ox oy side : Z) (x y : nat) : Prop :=
  ox <= Z.of_nat x < ox + side /\ oy <= Z.of_nat y < oy + side.

(** The buffer is square, of a side from 1 that is a C int, and opaque; the
    list holds the contraction of scale 1 at the origin and nothing else. *)
Definition identity_setting (self : Image_IFS) : Prop :=
  1 <= image_size self < 2 ^ 31 /\
  is_square (image_size self) (image self) /\
  all_pixels (fun p => pixel_ok p /\ opaque p) (image self) /\
  center_origin self = false /\
  functions self = [(PyInt 1, (PyInt 0, PyInt 0))].


(** * Pascal's triangle modulo m: [utils.py] and [display_pascal.py] *)

From Stdlib Require Import Factorial.
From Stdlib Require String.
Import String.StringSyntax.

Module Pascal.

(** What the calls of these two files can raise: a built-in exception of the
    kinds above, or the [NameError] of a name that is bound nowhere. *)
Inductive error : Type :=
| Builtin (e : exn)
| NameError.

Inductive answer (A : Type) : Type :=
| Value (a : A)
| Error (e : error).

Arguments Value {A} a.
Arguments Error {A} e.

Definition and_next {A B : Type} (m : answer A) (k : A -> answer B)
  : answer B :=
  match m with
  | Value a => k a
  | Error e => Error e
  end.

End Pascal.

Import Pascal.

Notation "x <~ m ;; k" := (and_next m (fun x => k))
  (at level 61, m at next level, right associativity).

(** A [for] loop over a list, in this second monad. *)
Fixpoint for_loop {A S : Type} (xs : list A) (body : A -> S -> answer S)
    (s : S) : answer S :=
  match xs with
  | [] => Value s
  | x :: xs' => s' <~ body x s ;; for_loop xs' body s'
  end.

(** ** [utils.py] *)

(** [raise_value_error(msg)]: the message is logged and [ValueError(msg)] is
    raised.  The text of the message is not kept. *)
Definition raise_value_error {A : Type} : answer A :=
  Error (Builtin ValueError).

(** [math.factorial] on an int. *)
Definition factorial (n : Z) : answer Z :=
  if n <? 0 then Error (Builtin ValueError)
  else Value (Z.of_nat (fact (Z.to_nat n))).

(** [choose(n, k)].  The three tests run in the order of the source.  The
    message of the third one is written ["Need k>0 but k=%d" %d], and [d] is
    a name that neither the function nor the module binds: evaluating the
    argument raises [NameError] before [raise_value_error] is called. *)
Definition choose (n k : Z) : answer Z :=
  if n <? k then raise_value_error
  else if n <? 0 then raise_value_error
  else if k <? 0 then Error NameError
  else
    fn <~ factorial n ;;
    fk <~ factorial k ;;
    fnk <~ factorial (n - k) ;;
    Value (fn / (fk * fnk)).

(** ** The array of [display_pascal]

    A two-dimensional array of floats, as [np.zeros] makes it, with the one
    operation the code uses on it: the assignment of a scalar to a
    rectangular slice. *)

Module NumPy.

Record ndarray : Type := mkArray {
  dim0 : nat;
  dim1 : nat;
  lines : list (list float)
}.

Definition shape (a : ndarray) : Z * Z :=
  (Z.of_nat (dim0 a), Z.of_nat (dim1 a)).

(** [a[i, j]]. *)
Definition item (a : ndarray) (i j : nat) : float :=
  nth j (nth i (lines a) []) PrimFloat.zero.

Definition tabulate (r c : nat) (f : nat -> nat -> float) : ndarray :=
  mkArray r c (map (fun i => map (fun j => f i j) (seq 0 c)) (seq 0 r)).

(** [np.zeros((r, c))]: a negative dimension is refused. *)
Definition zeros (shp : Z * Z) : answer ndarray :=
  let '(r, c) := shp in
  if (r <? 0) || (c <? 0) then Error (Builtin ValueError)
  else Value (tabulate (Z.to_nat r) (Z.to_nat c) (fun _ _ => PrimFloat.zero)).

(** The bound of a slice [start:stop] on an axis of length [len]: a negative
    bound counts from the end, and every bound is clipped to the axis. *)
Definition slice_bound (len v : Z) : Z :=
  if v <? 0 then Z.max 0 (v + len) else Z.min v len.

(** The position [i] is in the slice [start:stop] of an axis of length
    [len]. *)
Definition in_slice (len start stop : Z) (i : nat) : bool :=
  (slice_bound len start <=? Z.of_nat i) &&
  (Z.of_nat i <? slice_bound len stop).

(** [a[r0:r1, c0:c1] = v]. *)
Definition set_block (a : ndarray) (r0 r1 c0 c1 : Z) (v : float) : ndarray :=
  tabulate (dim0 a) (dim1 a) (fun i j =>
    if in_slice (Z.of_nat (dim0 a)) r0 r1 i &&
       in_slice (Z.of_nat (dim1 a)) c0 c1 j
    then v else item a i j).

End NumPy.

Import NumPy.

(** ** [display_pascal.py] *)

(** The mode that the source tests for. *)
Local Open Scope string_scope.
Definition binary_mode : String.string := "binary".
Local Close Scope string_scope.

(** The colour of an entry of the triangle, as the array stores it: in the
    mode ["binary"] the truth value of [color != 0], which the array holds
    as 1.0 or 0.0; in any other mode the residue itself. *)
Definition stored_color (mode : String.string) (color : Z) : float :=
  if String.eqb mode binary_mode
  then (if color =? 0 then float_of_int 0 else float_of_int 1)
  else float_of_int color.

(** [num % modulus]. *)
Definition int_mod (num modulus : Z) : answer Z :=
  if modulus =? 0 then Error (Builtin ZeroDivisionError)
  else Value (num mod modulus).

(** [display_pascal(modulus, n_rows, scale, mode, display=False)]: the array
    that the function returns.  Showing the array with [pyplot], when
    [display] is set, does not change it. *)
Definition display_pascal (modulus n_rows scale : Z) (mode : String.string)
  : answer ndarray :=
  _ <~ (if negb (scale mod 2 =? 0) then raise_value_error else Value tt) ;;
  let image_size := scale * n_rows in
  image <~ zeros (image_size, image_size) ;;
  for_loop (range 0 (n_rows + 1)) (fun n image =>
    let row_start := scale * n in
    for_loop (range 0 (n + 1)) (fun k image =>
      num <~ choose n k ;;
      color <~ int_mod num modulus ;;
      let color := stored_color mode color in
      let left_end :=
        image_size / 2 - (scale / 2) * (n + 1) + scale * k in
      Value (set_block image row_start (row_start + scale)
                       left_end (left_end + scale) color))
      image)
    image.

(** ** What the statements about the triangle use *)

(** The numbers of Pascal's triangle, by the rule that builds it. *)
Fixpoint binom (n k : nat) : nat :=
  match n, k with
  | _, O => 1
  | O, S _ => 0
  | S n', S k' => binom n' k' + binom n' k
  end%nat.

(** The array holds 0.0 everywhere. *)
Definition blank (a : ndarray) : Prop :=
  forall i j, item a i j = PrimFloat.zero.

(** The rounds of the two loops, in order: the pairs [(n, k)] with
    [0 <= n <= n_rows] and [0 <= k <= n]. *)
Definition entries (n_rows : Z) : list (Z * Z) :=
  flat_map (fun n => map (fun k => (n, k)) (range 0 (n + 1)))
           (range 0 (n_rows + 1)).

(** The column where the block of the entry [(n, k)] starts. *)
Definition left_end (n_rows scale n k : Z) : Z :=
  scale * n_rows / 2 - (scale / 2) * (n + 1) + scale * k.

(** The position [(i, j)] lies in the square block that the source assigns
    for the entry [(n, k)]: rows [scale * n] to [scale * n + scale],
    columns [left_end] to [left_end + scale]. *)
Definition in_entry_block (n_rows scale n k : Z) (i j : nat) : Prop :=
  scale * n <= Z.of_nat i < scale * n + scale /\
  left_end n_rows scale n k <= Z.of_nat j < left_end n_rows scale n k + scale.

(** The same, as the slices of the array decide it. *)
Definition entry_covers (n_rows scale : Z) (len : nat) (nk : Z * Z)
    (i j : nat) : bool :=
  let '(n, k) := nk in
  in_slice (Z.of_nat len) (scale * n) (scale * n + scale) i &&
  in_slice (Z.of_nat len) (left_end n_rows scale n k)
           (left_end n_rows scale n k + scale) j.

(** The colour stored for the entry [(n, k)]. *)
Definition entry_color (modulus : Z) (mode : String.string) (nk : Z * Z)
  : float :=
  stored_color mode
    (Z.of_nat (binom (Z.to_nat (fst nk)) (Z.to_nat (snd nk))) mod modulus).

(** The assignment of one round. *)
Definition paint_entry (modulus n_rows scale : Z) (mode : String.string)
    (image : ndarray) (nk : Z * Z) : ndarray :=
  let '(n, k) := nk in
  set_block image (scale * n) (scale * n + scale)
            (left_end n_rows scale n k) (left_end n_rows scale n k + scale)
            (entry_color modulus mode nk).

(** ** Renderers and arrays of the further examples *)


(** The renderer [renderer2] with the contraction of scale 1 at the
    origin. *)
Definition unit2 : Image_IFS :=
  mkImage_IFS white2 white2 2 false [(PyInt 1, (PyInt 0, PyInt 0))].

(** The renderer [renderer2] with the contraction [half_half], and the
    buffer that one call of [iterate] leaves. *)
Definition halved2 : Image_IFS :=
  mkImage_IFS white2 white2 2 false [half_half].

Definition corner_dot2 : Image :=
  mkImage 2 2 [[opaque_black; opaque_white]; [opaque_black; opaque_black]].

(** The renderer on the seed [half_seed] with the contraction
    [half_half]. *)
Definition half_seeded2 : Image_IFS :=
  mkImage_IFS half_seed half_seed 2 false [half_half].

(** The renderer just built for [polygon_ifs], 2 by 2. *)
Definition centred2 : Image_IFS := mkImage_IFS white2 white2 2 true [].

(** The picture of one row of the triangle at scale 2. *)
Definition ones2 : ndarray :=
  mkArray 2 2 [[float_of_int 1; float_of_int 1];
               [float_of_int 1; float_of_int 1]].

(** * Properties *)

(** ** Images *)

Lemma well_sized_build (w h : nat) (f : nat -> nat -> pixel) :
  well_sized (build w h f).
Proof.
  split; simpl.
  - now rewrite length_map, length_seq.
  - apply Forall_forall. intros row Hrow.
    apply in_map_iff in Hrow. destruct Hrow as [y [<- _]].
    now rewrite length_map, length_seq.
Qed.

Lemma getpixel_build (w h : nat) (f : nat -> nat -> pixel) (x y : nat) :
  (x < w)%nat -> (y < h)%nat -> getpixel (build w h f) x y = f x y.
Proof.
  intros Hx Hy. unfold getpixel, build. simpl.
  rewrite (nth_indep _ [] (map (fun x0 => f x0 0%nat) (seq 0 w)))
    by now rewrite length_map, length_seq.
  rewrite (map_nth (fun y0 => map (fun x0 => f x0 y0) (seq 0 w))).
  rewrite seq_nth by assumption. simpl.
  rewrite (nth_indep _ _ (f 0%nat y)) by now rewrite length_map, length_seq.
  rewrite (map_nth (fun x0 => f x0 y)).
  now rewrite seq_nth.
Qed.

Lemma build_ext (w h : nat) (f g : nat -> nat -> pixel) :
  (forall x y, (x < w)%nat -> (y < h)%nat -> f x y = g x y) ->
  build w h f = build w h g.
Proof.
  intros Hfg. unfold build. f_equal.
  apply map_ext_in. intros y Hy. apply in_seq in Hy.
  apply map_ext_in. intros x Hx. apply in_seq in Hx.
  apply Hfg; lia.
Qed.




Lemma well_sized_flip (im : Image) :
  well_sized im -> well_sized (transpose_FLIP_TOP_BOTTOM im).
Proof.
  intros [Hlen Hrows]. split; simpl.
  - now rewrite length_rev.
  - apply Forall_rev. exact Hrows.
Qed.

(** Flipping twice gives the image back. *)
Lemma flip_involutive (im : Image) :
  transpose_FLIP_TOP_BOTTOM (transpose_FLIP_TOP_BOTTOM im) = im.
Proof.
  destruct im as [w h rs]. unfold transpose_FLIP_TOP_BOTTOM. simpl.
  now rewrite rev_involutive.
Qed.

Lemma new_square (n : Z) (c : pixel) :
  0 <= n ->
  new (n, n) c = Ok (build (Z.to_nat n) (Z.to_nat n) (fun _ _ => c)).
Proof.
  intros Hn. unfold new.
  destruct (n <? 0) eqn:E; [apply Z.ltb_lt in E; lia | reflexivity].
Qed.

Lemma new_is_square (n : Z) (c : pixel) (im : Image) :
  new (n, n) c = Ok im -> is_square n im.
Proof.
  unfold new. destruct (n <? 0) eqn:E; simpl; [discriminate|].
  intros [= <-]. apply Z.ltb_ge in E. split.
  - unfold size. simpl. now rewrite Z2Nat.id.
  - apply well_sized_build.
Qed.

(** The two ways in which [resize] returns: a copy at the same size, or
    a resampled image at a size that the C code accepts. *)
Lemma resize_ok_cases {R : Resampler} (im out : Image) (w h : Z) :
  resize im (w, h) = Ok out ->
  (size im = (w, h) /\ out = copy im) \/
  (c_int w = true /\ c_int h = true /\ 1 <= w /\ 1 <= h /\
   out = build (Z.to_nat w) (Z.to_nat h)
               (sample im (Z.to_nat w) (Z.to_nat h))).
Proof.
  unfold resize.
  destruct ((Z.of_nat (width im) =? w) && (Z.of_nat (height im) =? h))
    eqn:Hsame.
  - intros [= <-]. left. apply andb_prop in Hsame.
    destruct Hsame as [Hw Hh]. apply Z.eqb_eq in Hw, Hh.
    unfold size. now rewrite Hw, Hh.
  - destruct (c_int w && c_int h) eqn:Hint; cbn [negb]; [|discriminate].
    destruct ((w <? 1) || (h <? 1)) eqn:Hsmall; [discriminate|].
    intros [= <-]. right.
    apply andb_prop in Hint. destruct Hint as [Hcw Hch].
    apply orb_false_iff in Hsmall. destruct Hsmall as [Hw Hh].
    apply Z.ltb_ge in Hw, Hh. now repeat split.
Qed.

Lemma resize_is_square {R : Resampler} (im out : Image) (n : Z) :
  resize im (n, n) = Ok out -> is_square n out.
Proof.
  intros Hre. apply resize_ok_cases in Hre.
  destruct Hre as [[Hsize ->] | (_ & _ & Hn & _ & ->)].
  - split; [exact Hsize | apply well_sized_build].
  - split; [|apply well_sized_build].
    unfold size. simpl. rewrite Z2Nat.id by lia. reflexivity.
Qed.

Lemma c_int_bounds (v : Z) : c_int v = true <-> - 2 ^ 31 <= v < 2 ^ 31.
Proof.
  unfold c_int. rewrite andb_true_iff, Z.leb_le, Z.ltb_lt. reflexivity.
Qed.

(** Whether [resize] returns depends on the size of the source only. *)
Lemma resize_ok_iff {R : Resampler} (im : Image) (side : Z) :
  (exists out, resize im (side, side) = Ok out) <->
  (size im = (side, side) \/ 1 <= side < 2 ^ 31).
Proof.
  split.
  - intros [out Hre]. apply resize_ok_cases in Hre.
    destruct Hre as [[Hsize _] | (Hc & _ & Hs & _)]; [now left | right].
    apply c_int_bounds in Hc. lia.
  - intros Hside. unfold resize.
    destruct ((Z.of_nat (width im) =? side) && (Z.of_nat (height im) =? side))
      eqn:Hsame; [eauto|].
    destruct Hside as [Hsize | Hside].
    + unfold size in Hsize. injection Hsize as Hw Hh.
      rewrite Hw, Hh, Z.eqb_refl in Hsame. discriminate.
    + assert (c_int side = true) as -> by (apply c_int_bounds; lia).
      cbn [andb negb].
      destruct (Z.ltb_spec side 1); [lia|]. cbn [orb]. eauto.
Qed.

Lemma paste_call_inside (dst src : Image) (x0 y0 : Z) :
  c_int x0 = true -> c_int y0 = true ->
  c_int (x0 + Z.of_nat (width src)) = true ->
  c_int (y0 + Z.of_nat (height src)) = true ->
  paste_call dst src (x0, y0) = Ok (paste dst src (x0, y0)).
Proof.
  intros H1 H2 H3 H4. unfold paste_call. now rewrite H1, H2, H3, H4.
Qed.

(** A paste that the C code accepts gives the pixels of [paste]. *)
Lemma paste_call_ok (dst src out : Image) (box : Z * Z) :
  paste_call dst src box = Ok out -> out = paste dst src box.
Proof.
  destruct box as [x0 y0]. unfold paste_call.
  destruct (c_int x0 && c_int y0 && c_int (x0 + Z.of_nat (width src)) &&
            c_int (y0 + Z.of_nat (height src))); [|discriminate].
  now intros [= <-].
Qed.

Lemma paste_mask_is_square (n : Z) (dst src mask : Image) :
  is_square n dst -> is_square n (paste_mask dst src mask).
Proof.
  intros [Hsize _]. split; [exact Hsize | apply well_sized_build].
Qed.

Lemma flip_is_square (n : Z) (im : Image) :
  is_square n im -> is_square n (transpose_FLIP_TOP_BOTTOM im).
Proof.
  intros [Hsize Hws]. split; [exact Hsize | now apply well_sized_flip].
Qed.

(** ** The renderer's buffer *)

Section RendererFacts.

Context {R : Resampler} {K : Stack}.

(** [iterate] as the source writes it: the pass and the recursive call when
    [n_iterations > 0], the last step when [n_iterations == 0] on a call that
    is not the first, and nothing otherwise.  The recursive call has one
    call less left below it, and raises when none is left. *)
Lemma iterate_unfold (room : nat) (n : Z) (first_call : bool)
    (self : Image_IFS) :
  iterate_within room n first_call self =
  if n >? 0 then
    match step first_call self with
    | Raise e => Raised e self
    | Ok new_image =>
        match room with
        | O => Raised RecursionError (set_image self new_image)
        | S room' =>
            iterate_within room' (n - 1) false (set_image self new_image)
        end
    end
  else if (n =? 0) && negb first_call then finalize self
  else Returned self.
Proof.
  unfold iterate_within.
  destruct (n >? 0) eqn:Hpos.
  - apply Z.gtb_lt in Hpos.
    destruct (n <? 0) eqn:Hneg; [apply Z.ltb_lt in Hneg; lia|].
    replace (Z.to_nat n) with (S (Z.to_nat (n - 1))) by lia.
    cbn [iterate_passes].
    destruct (step first_call self); [|reflexivity].
    destruct room as [|room']; [reflexivity|].
    destruct (n - 1 <? 0) eqn:Hneg'; [apply Z.ltb_lt in Hneg'; lia|].
    reflexivity.
  - destruct (n <? 0) eqn:Hneg.
    + apply Z.ltb_lt in Hneg.
      destruct (n =? 0) eqn:Hz; [apply Z.eqb_eq in Hz; lia | reflexivity].
    + apply Z.ltb_ge in Hneg.
      assert (n = 0) as -> by (destruct (Z.gtb_spec n 0); [discriminate | lia]).
      simpl. now destruct first_call.
Qed.

Lemma apply_contraction_is_square (n : Z) (co : bool)
    (start canvas out : Image) (c : contraction) :
  is_square n canvas ->
  apply_contraction n co start canvas c = Ok out ->
  is_square n out.
Proof.
  intros Hsq. unfold apply_contraction.
  destruct (scaled_side n c) as [side|]; cbn [bind]; [|discriminate].
  destruct (resize start (side, side)) as [copy|]; cbn [bind]; [|discriminate].
  destruct (placement n co side c) as [offset|]; cbn [bind]; [|discriminate].
  destruct (new (n, n) transparent) as [layer|]; cbn [bind]; [|discriminate].
  destruct (paste_call layer copy offset) as [layer'|]; cbn [bind];
    [|discriminate].
  intros [= <-]. now apply paste_mask_is_square.
Qed.

Lemma apply_contractions_is_square (n : Z) (co : bool) (start : Image)
    (fs : list contraction) :
  forall canvas out,
    is_square n canvas ->
    apply_contractions n co start canvas fs = Ok out ->
    is_square n out.
Proof.
  induction fs as [|c fs IH]; intros canvas out Hsq; simpl.
  - now intros [= <-].
  - destruct (apply_contraction n co start canvas c) as [canvas'|] eqn:Hc;
      cbn [bind]; [|discriminate].
    apply IH. eapply apply_contraction_is_square; eauto.
Qed.

Lemma step_is_square (first_call : bool) (self : Image_IFS) (out : Image) :
  step first_call self = Ok out -> is_square (image_size self) out.
Proof.
  unfold step.
  destruct (new (image_size self, image_size self) transparent) as [canvas|]
    eqn:Hnew; cbn [bind]; [|discriminate].
  apply apply_contractions_is_square. eapply new_is_square; eauto.
Qed.

(** The last step leaves a square buffer, or leaves the object alone. *)
Lemma finalize_cases (self : Image_IFS) :
  (exists e, finalize self = Raised e self) \/
  (exists im, finalize self = Returned (set_image self im) /\
              is_square (image_size self) im).
Proof.
  unfold finalize.
  destruct (new (image_size self, image_size self) opaque_black) as [bg|e]
    eqn:Hnew.
  - right. eexists. split; [reflexivity|].
    apply flip_is_square, paste_mask_is_square. eapply new_is_square; eauto.
  - left. now exists e.
Qed.

Lemma iterate_passes_keeps (passes : nat) :
  forall room first_call self,
    is_square (image_size self) (image self) ->
    let after := object_after (iterate_passes room passes first_call self) in
    same_but_image self after /\ is_square (image_size after) (image after).
Proof.
  induction passes as [|passes IH]; intros room first_call self Hsq;
    cbn [iterate_passes].
  - destruct first_call; simpl.
    + repeat split; (reflexivity || apply Hsq).
    + destruct (finalize_cases self) as [[e ->] | [im [-> Him]]]; simpl;
        repeat split; (reflexivity || apply Hsq || apply Him).
  - destruct (step first_call self) as [new_image|e] eqn:Hstep; simpl.
    + apply step_is_square in Hstep.
      destruct room as [|room'].
      * simpl. repeat split; (reflexivity || apply Hstep).
      * destruct (IH room' false (set_image self new_image) Hstep)
          as [Hsame Hafter].
        split; [|exact Hafter].
        destruct Hsame as (H1 & H2 & H3 & H4). simpl in *. now repeat split.
    + repeat split; (reflexivity || apply Hsq).
Qed.

Lemma iterate_keeps (n : Z) (first_call : bool) (self : Image_IFS) :
  is_square (image_size self) (image self) ->
  let after := object_after (iterate n first_call self) in
  same_but_image self after /\ is_square (image_size after) (image after).
Proof.
  intros Hsq. unfold iterate, iterate_within. destruct (n <? 0).
  - simpl. repeat split; (reflexivity || apply Hsq).
  - now apply iterate_passes_keeps.
Qed.

Lemma init_is_square (seed : option Image) (n : Z) (co : bool)
    (self : Image_IFS) :
  init seed n co = Ok self ->
  image_size self = n /\ image self = seed_image self /\
  center_origin self = co /\ functions self = [] /\
  is_square n (image self).
Proof.
  unfold init.
  destruct seed as [im|].
  - destruct (resize im (n, n)) as [im'|] eqn:Hre; cbn [bind]; [|discriminate].
    intros [= <-]. simpl. repeat split; eapply resize_is_square; eauto.
  - destruct (_default_seed n) as [im'|] eqn:Hre; cbn [bind]; [|discriminate].
    intros [= <-]. simpl. repeat split; eapply new_is_square; eauto.
Qed.

Lemma perform_keeps_square (c : call) (self : Image_IFS) :
  is_square (image_size self) (image self) ->
  let after := object_after (perform c self) in
  image_size after = image_size self /\
  is_square (image_size after) (image after).
Proof.
  intros Hsq. destruct c as [scale translation | n first_call]; simpl.
  - split; [reflexivity | exact Hsq].
  - destruct (iterate_keeps n first_call self Hsq) as [(_ & Hn & _) Hafter].
    split; assumption.
Qed.

End RendererFacts.

(** C8: the buffer of a renderer that the constructor built is a square of
    exactly [image_size] by [image_size] pixels, and it still is after any
    sequence of calls of [iterate] (with its last step) and [add_function],
    whether they return or raise; [image_size] itself never changes. *)
Theorem C8_buffer_always_square {R : Resampler} {K : Stack}
    (seed : option Image) (n : Z) (co : bool) (self : Image_IFS)
    (calls : list call) :
  init seed n co = Ok self ->
  image_size (perform_all calls self) = n /\
  is_square n (image (perform_all calls self)).
Proof.
  intros Hinit.
  apply init_is_square in Hinit. destruct Hinit as (Hn & _ & _ & _ & Hsq).
  rewrite <- Hn in Hsq |- *. clear Hn.
  revert self Hsq. unfold perform_all.
  induction calls as [|c calls IH]; intros self Hsq; simpl.
  - now split.
  - destruct (perform_keeps_square c self Hsq) as [Hsize Hafter].
    specialize (IH _ Hafter). rewrite Hsize in IH. exact IH.
Qed.

Lemma C8_buffer_always_square_witness :
  image_size (perform_all [Add_function (PyFloat 0.5) (PyInt 0, PyInt 0);
                           Iterate 2 true; Iterate 0 false] renderer2) = 2 /\
  is_square 2 (image (perform_all
                        [Add_function (PyFloat 0.5) (PyInt 0, PyInt 0);
                         Iterate 2 true; Iterate 0 false] renderer2)).
Proof.
  apply (@C8_buffer_always_square NEAREST module_level None 2 false
           renderer2).
  reflexivity.
Defined.

(** C3: on a renderer just built, [iterate(0)] returns and leaves the object
    as it was: the buffer is still the seed (the default one, or the given
    one resized), so neither the flip nor the last step ran. *)
Theorem C3_iterate_zero_first_call {R : Resampler} {K : Stack}
    (seed : option Image) (n : Z) (co : bool) (self : Image_IFS) :
  init seed n co = Ok self ->
  iterate 0 true self = Returned self /\
  image self = seed_image self /\
  match seed with
  | None => _default_seed n = Ok (seed_image self)
  | Some im => resize im (n, n) = Ok (seed_image self)
  end.
Proof.
  intros Hinit. split; [reflexivity|].
  unfold init in Hinit. destruct seed as [im|].
  - destruct (resize im (n, n)) as [im'|]; cbn [bind] in Hinit;
      [|discriminate].
    injection Hinit as <-. now split.
  - destruct (_default_seed n) as [im'|]; cbn [bind] in Hinit;
      [|discriminate].
    injection Hinit as <-. now split.
Qed.

Lemma C3_iterate_zero_first_call_witness :
  iterate 0 true renderer2 = Returned renderer2 /\
  image renderer2 = seed_image renderer2 /\
  _default_seed 2 = Ok (seed_image renderer2).
Proof.
  apply (@C3_iterate_zero_first_call NEAREST module_level None 2 false
           renderer2).
  reflexivity.
Defined.

(** C10: [iterate(n)] with a negative [n], called the usual way (as a first
    call), returns without raising and leaves every attribute of the object
    as it was. *)
Theorem C10_iterate_negative_first_call {R : Resampler} {K : Stack} (n : Z)
    (self : Image_IFS) :
  n < 0 -> iterate n true self = Returned self.
Proof.
  intros Hn. unfold iterate. rewrite iterate_unfold.
  destruct (Z.gtb_spec n 0) as [Hpos|_]; [lia|].
  destruct (Z.eqb_spec n 0) as [Hz|_]; [lia|].
  reflexivity.
Qed.

Lemma C10_iterate_negative_first_call_witness :
  iterate (-3) true renderer2 = Returned renderer2.
Proof.
  apply (@C10_iterate_negative_first_call NEAREST module_level (-3)
           renderer2).
  lia.
Defined.

(** ** An empty list of contractions *)

Section EmptyFunctions.

Context {R : Resampler}.






End EmptyFunctions.




(** ** [add_function] *)

(** C6, as the code has it: [add_function] checks nothing and never raises;
    whatever the scale, it returns, the pair [(scale, translation)] is the
    new last element of the list of contractions, and nothing else
    changes. *)
Theorem C6_add_function_always_appends (scale : number)
    (translation : number * number) (self : Image_IFS) :
  exists after,
    add_function scale translation self = Returned after /\
    functions after = functions self ++ [(scale, translation)] /\
    seed_image after = seed_image self /\ image after = image self /\
    image_size after = image_size self /\
    center_origin after = center_origin self.
Proof.
  eexists. split; [reflexivity|].
  simpl. repeat split.
Qed.

(** C6 fails as stated: a scale of [-0.5], which is not positive, is
    accepted and appended without any exception; the failure only comes
    later, inside [iterate], when [resize] refuses the side of -1 pixel. *)
Lemma C6_counterexample :
  PrimFloat.leb (-0.5) 0 = true /\
  add_function (PyFloat (-0.5)) (PyInt 0, PyInt 0) renderer2 =
    Returned (mkImage_IFS white2 white2 2 false
                          [(PyFloat (-0.5), (PyInt 0, PyInt 0))]) /\
  and_then (add_function (PyFloat (-0.5)) (PyInt 0, PyInt 0) renderer2)
           (iterate 1 true) =
    Raised ValueError
           (mkImage_IFS white2 white2 2 false
                        [(PyFloat (-0.5), (PyInt 0, PyInt 0))]).
Proof.
  repeat split; vm_compute; reflexivity.
Qed.

(** ** Two calls against one *)

(** C7: [iterate(a)] followed by [iterate(b)] need not give the buffer of
    [iterate(a + b)].  On the seed [half_seed] with the two contractions of
    [overlapping], [iterate(1)] twice ends all black, because the black that
    the first call's last step put under the transparent column is copied
    over the white column by the second call; [iterate(2)] keeps the white
    column. *)
Theorem C7_iterate_not_additive :
  exists (seed : Image) (size : Z) (co : bool) (fs : list contraction)
         (a b : Z) (self after_two after_one : Image_IFS),
    1 <= a /\ 1 <= b /\
    init (Some seed) size co = Ok self /\
    and_then (iterate a true
                (perform_all (map (fun c => Add_function (fst c) (snd c)) fs)
                             self))
             (iterate b true) = Returned after_two /\
    iterate (a + b) true
            (perform_all (map (fun c => Add_function (fst c) (snd c)) fs)
                         self) = Returned after_one /\
    image after_two <> image after_one.
Proof.
  exists half_seed, 2, false, overlapping, 1, 1.
  exists (mkImage_IFS half_seed half_seed 2 false []).
  exists (mkImage_IFS half_seed black2 2 false overlapping).
  exists (mkImage_IFS half_seed black_white2 2 false overlapping).
  split; [lia|]. split; [lia|].
  split; [vm_compute; reflexivity|].
  split; [vm_compute; reflexivity|].
  split; [vm_compute; reflexivity|].
  simpl. intros Heq. discriminate Heq.
Qed.

(** ** Transparency after the last step *)

(** C2 at a seed with a half transparent pixel: with the single contraction
    of scale 1 in place, [iterate(1)] returns a buffer whose only pixel has
    alpha 207, not 255.  The masked paste of the last step weights the alpha
    band too, so a pixel that is neither opaque nor transparent stays
    translucent. *)
Theorem C2_translucent_pixel_survives :
  exists self,
    init (Some translucent_seed) 1 false = Ok self /\
    and_then (add_function (PyFloat 1) (PyInt 0, PyInt 0) self)
             (iterate 1 true) =
      Returned (mkImage_IFS translucent_seed
                            (mkImage 1 1 [[RGBA 32 32 32 207]])
                            1 false [(PyFloat 1, (PyInt 0, PyInt 0))]).
Proof.
  exists (mkImage_IFS translucent_seed translucent_seed 1 false []).
  split; vm_compute; reflexivity.
Qed.

(** ** Sizes and offsets in pixels *)

Lemma int_of_float_cut (x : float) (z : Z) :
  int_of_float x = Ok z -> float_cut x z.
Proof.
  unfold int_of_float, float_cut.
  destruct (Prim2SF x) as [s | s | | s m e]; try discriminate.
  - now intros [= <-].
  - intros [= <-]. exists (Z.shiftl (Zpos m) e).
    split; [reflexivity|].
    destruct (Z.leb_spec 0 e) as [He|He].
    + rewrite Z.shiftl_mul_pow2 by assumption.
      split; [|reflexivity].
      apply Z.mul_nonneg_nonneg; [lia | apply Z.pow_nonneg; lia].
    + rewrite Z.shiftl_div_pow2 by lia.
      assert (0 < 2 ^ (- e)) as Hd by (apply Z.pow_pos_nonneg; lia).
      split; [apply Z.div_pos; lia|].
      pose proof (Z.mul_div_le (Zpos m) (2 ^ (- e)) Hd).
      pose proof (Z.mul_succ_div_gt (Zpos m) (2 ^ (- e)) Hd).
      nia.
Qed.

Lemma int_cut (a : number) (z : Z) :
  int a = Ok z -> cut_toward_zero a z.
Proof.
  destruct a as [v|x]; simpl.
  - now intros [= <-].
  - apply int_of_float_cut.
Qed.

Section Pass.

Context {R : Resampler}.

Lemma placement_inv (n : Z) (co : bool) (side : Z) (c : contraction)
    (offset : Z * Z) :
  placement n co side c = Ok offset ->
  exists dx dy,
    int (mul_int (fst (snd c)) n) = Ok dx /\
    int (mul_int (snd (snd c)) n) = Ok dy /\
    offset = ((if co then side else 0) + dx, (if co then side else 0) + dy).
Proof.
  unfold placement.
  destruct (int (mul_int (fst (snd c)) n)) as [dx|]; cbn [bind];
    [|discriminate].
  destruct (int (mul_int (snd (snd c)) n)) as [dy|]; cbn [bind];
    [|discriminate].
  intros [= <-]. now exists dx, dy.
Qed.

(** Every contraction of the list is applied in a pass that completes. *)
Lemma apply_contractions_each (n : Z) (co : bool) (start : Image)
    (fs : list contraction) :
  forall canvas out,
    is_square n canvas ->
    apply_contractions n co start canvas fs = Ok out ->
    forall c, In c fs ->
      exists before after,
        is_square n before /\
        apply_contraction n co start before c = Ok after.
Proof.
  induction fs as [|c0 fs IH]; intros canvas out Hsq Hrun c Hin.
  - destruct Hin.
  - simpl in Hrun.
    destruct (apply_contraction n co start canvas c0) as [canvas'|] eqn:Hc0;
      cbn [bind] in Hrun; [|discriminate].
    destruct Hin as [<- | Hin].
    + now exists canvas, canvas'.
    + apply (IH canvas' out); try assumption.
      eapply apply_contraction_is_square; eauto.
Qed.

End Pass.

(** C1, as the code has it: in a pass of [iterate] that completes, on a
    renderer with [image_size > 0], every contraction [(s, (tx, ty))] of the
    list is applied with [int], which cuts toward zero, where the claim says
    [round]: the copy of the buffer the pass started from is resized to
    [int(s * image_size)] pixels per side, and it is pasted at the base
    offset (the side of the copy when [center_origin], else 0) plus
    [int(tx * image_size)] and [int(ty * image_size)]. *)
Theorem C1_pass_cuts_toward_zero {R : Resampler} (first_call : bool)
    (self : Image_IFS) (out : Image) (c : contraction) :
  0 < image_size self ->
  In c (functions self) ->
  step first_call self = Ok out ->
  let n := image_size self in
  let start :=
    if first_call then transpose_FLIP_TOP_BOTTOM (image self)
    else image self in
  exists side dx dy copy blank before,
    int (mul_int (scale_of c) n) = Ok side /\
    cut_toward_zero (mul_int (scale_of c) n) side /\
    resize start (side, side) = Ok copy /\
    is_square side copy /\
    int (mul_int (fst (snd c)) n) = Ok dx /\
    cut_toward_zero (mul_int (fst (snd c)) n) dx /\
    int (mul_int (snd (snd c)) n) = Ok dy /\
    cut_toward_zero (mul_int (snd (snd c)) n) dy /\
    new (n, n) transparent = Ok blank /\
    is_square n before /\
    apply_contraction n (center_origin self) start before c =
      Ok (let base := if center_origin self then side else 0 in
          let layer := paste blank copy (base + dx, base + dy) in
          paste_mask before layer layer).
Proof.
  intros _ Hin Hstep n start. unfold step in Hstep. fold n start in Hstep.
  destruct (new (n, n) transparent) as [canvas|] eqn:Hnew;
    cbn [bind] in Hstep; [|discriminate].
  pose proof (@new_is_square n transparent canvas Hnew) as Hcanvas.
  destruct (@apply_contractions_each R n (center_origin self) start
              (functions self) canvas out Hcanvas Hstep c Hin)
    as (before & after & Hsq & Happly).
  unfold apply_contraction, scaled_side in Happly.
  destruct (int (mul_int (fst c) n)) as [side|] eqn:Hside;
    cbn [bind] in Happly; [|discriminate].
  destruct (resize start (side, side)) as [copy|] eqn:Hcopy;
    cbn [bind] in Happly; [|discriminate].
  destruct (placement n (center_origin self) side c) as [offset|] eqn:Hoff;
    cbn [bind] in Happly; [|discriminate].
  apply placement_inv in Hoff. destruct Hoff as (dx & dy & Hdx & Hdy & ->).
  rewrite Hnew in Happly. cbn [bind] in Happly.
  destruct (paste_call canvas copy
              ((if center_origin self then side else 0) + dx,
               (if center_origin self then side else 0) + dy))
    as [layer|] eqn:Hlayer; cbn [bind] in Happly; [|discriminate].
  pose proof (@paste_call_ok canvas copy layer _ Hlayer) as Hpixels.
  exists side, dx, dy, copy, canvas, before.
  unfold scale_of. rewrite Hside.
  repeat split; try assumption;
    try (apply int_cut; assumption);
    try (eapply resize_is_square; exact Hcopy);
    try apply Hsq.
  unfold apply_contraction, scaled_side, placement.
  rewrite Hside. cbn [bind]. rewrite Hcopy. cbn [bind].
  rewrite Hdx, Hdy. cbn [bind]. rewrite Hnew. cbn [bind].
  rewrite Hlayer. cbn [bind]. now rewrite Hpixels.
Qed.

Lemma C1_pass_cuts_toward_zero_witness :
  exists side dx dy copy blank before,
    int (mul_int (scale_of half_half) 3) = Ok side /\
    cut_toward_zero (mul_int (scale_of half_half) 3) side /\
    resize (transpose_FLIP_TOP_BOTTOM white3) (side, side) = Ok copy /\
    is_square side copy /\
    int (mul_int (fst (snd half_half)) 3) = Ok dx /\
    cut_toward_zero (mul_int (fst (snd half_half)) 3) dx /\
    int (mul_int (snd (snd half_half)) 3) = Ok dy /\
    cut_toward_zero (mul_int (snd (snd half_half)) 3) dy /\
    new (3, 3) transparent = Ok blank /\
    is_square 3 before /\
    apply_contraction 3 false (transpose_FLIP_TOP_BOTTOM white3) before
                      half_half =
      Ok (paste_mask before (paste blank copy (0 + dx, 0 + dy))
                     (paste blank copy (0 + dx, 0 + dy))).
Proof.
  apply (@C1_pass_cuts_toward_zero NEAREST true renderer3 centre_dot3
                                   half_half).
  - simpl. lia.
  - simpl. left. reflexivity.
  - vm_compute. reflexivity.
Defined.

(** C1 fails as stated.  On [renderer3], where [image_size] is 3 and the
    contraction is [(0.5, (0.5, 0.5))], each product is 1.5: the code makes
    the copy 1 pixel wide and pastes it at (1, 1), while [round] gives 2 for
    the side and 2 for each offset.  The pass leaves one white pixel at
    (1, 1). *)
Lemma C1_counterexample :
  0 < image_size renderer3 /\
  In half_half (functions renderer3) /\
  mul_int (scale_of half_half) 3 = PyFloat 1.5 /\
  scaled_side 3 half_half = Ok 1 /\
  round (mul_int (scale_of half_half) 3) = Ok 2 /\
  placement 3 false 1 half_half = Ok (1, 1) /\
  round (mul_int (fst (snd half_half)) 3) = Ok 2 /\
  round (mul_int (snd (snd half_half)) 3) = Ok 2 /\
  step true renderer3 = Ok centre_dot3.
Proof.
  split; [simpl; lia|].
  split; [simpl; left; reflexivity|].
  repeat split; vm_compute; reflexivity.
Qed.

(** The scenario of the Sierpinski gasket with two rows on a side of 4: the
    third copy goes to (1, 1), since [int] cuts the square root of 3 to 1. *)
Lemma sierpinski2_offsets :
  exists self,
    n_sierpinski None 4 2 = Ok self /\
    map (scaled_side 4) (functions self) = [Ok 2; Ok 2; Ok 2] /\
    map (placement 4 false 2) (functions self) =
      [Ok (0, 0); Ok (2, 0); Ok (1, 1)] /\
    map (fun c => round (mul_int (snd (snd c)) 4)) (functions self) =
      [Ok 0; Ok 0; Ok 2].
Proof.
  eexists. split; [vm_compute; reflexivity|].
  repeat split; vm_compute; reflexivity.
Qed.

(** ** The lists the generators build *)

Lemma push_all_nil (self : Image_IFS) : push_all [] self = self.
Proof.
  destruct self. unfold push_all. simpl. now rewrite app_nil_r.
Qed.

Lemma push_all_app (cs ds : list contraction) (self : Image_IFS) :
  push_all ds (push_all cs self) = push_all (cs ++ ds) self.
Proof.
  unfold push_all. simpl. now rewrite app_assoc.
Qed.

(** A loop whose body only appends contractions appends them all, in the
    order of the loop. *)
Lemma for_each_push_all {A : Type} (G : A -> list contraction)
    (body : A -> Image_IFS -> result Image_IFS) (xs : list A) :
  (forall x self, In x xs -> body x self = Ok (push_all (G x) self)) ->
  forall self,
    for_each xs body self = Ok (push_all (flat_map G xs) self).
Proof.
  induction xs as [|x xs IH]; intros Hbody self; simpl.
  - now rewrite push_all_nil.
  - rewrite Hbody by now left. cbn [bind].
    rewrite IH by (intros; apply Hbody; now right).
    now rewrite push_all_app.
Qed.

Lemma for_each_push {A : Type} (g : A -> contraction)
    (body : A -> Image_IFS -> result Image_IFS) (xs : list A) :
  (forall x self, In x xs -> body x self = Ok (push_all [g x] self)) ->
  forall self, for_each xs body self = Ok (push_all (map g xs) self).
Proof.
  intros Hbody self.
  rewrite (for_each_push_all (fun x => [g x])) by assumption.
  assert (flat_map (fun x => [g x]) xs = map g xs) as ->; [|reflexivity].
  clear Hbody.
  induction xs as [|x xs IH]; simpl; [reflexivity | now rewrite IH].
Qed.

Lemma length_range (a b : Z) : length (range a b) = Z.to_nat (b - a).
Proof.
  unfold range. now rewrite length_map, length_seq.
Qed.

Lemma in_range (a b i : Z) : In i (range a b) -> a <= i < b.
Proof.
  unfold range. intros Hin. apply in_map_iff in Hin.
  destruct Hin as [k [<- Hk]]. apply in_seq in Hk. lia.
Qed.

Lemma int_truediv_nonzero (a b : Z) :
  b <> 0 -> int_truediv a b = Ok (round_ratio a b).
Proof.
  intros Hb. unfold int_truediv.
  destruct (Z.eqb_spec b 0); [contradiction | reflexivity].
Qed.

Lemma float_truediv_int_nonzero (x : float) (b : Z) :
  b <> 0 -> float_truediv_int x b = Ok (PrimFloat.div x (float_of_int b)).
Proof.
  intros Hb. unfold float_truediv_int.
  destruct (Z.eqb_spec b 0); [contradiction | reflexivity].
Qed.

(** Rows of lengths [n], [n - 1], ..., 1 hold [n (n + 1) / 2] elements. *)
Lemma triangle_length {B : Type} (f : Z -> list B) (n : nat) :
  (forall i, (i < n)%nat -> length (f (0 + Z.of_nat i)) = (n - i)%nat) ->
  forall len a,
    (a + len = n)%nat ->
    (2 * length (flat_map f (map (fun k => (0 + Z.of_nat k)%Z) (seq a len))) =
     len * (len + 1))%nat.
Proof.
  intros Hrow. induction len as [|len IH]; intros a Hsum;
    cbn [seq map flat_map].
  - reflexivity.
  - rewrite length_app, Hrow by lia.
    specialize (IH (S a) ltac:(lia)). nia.
Qed.

Section GeneratorFacts.

Context {R : Resampler} {M : MathLib}.

(** The whole list that [n_sierpinski] builds. *)
Lemma n_sierpinski_functions (seed : option Image) (size n : Z)
    (built : Image_IFS) :
  1 <= n ->
  init seed size false = Ok built ->
  n_sierpinski seed size n =
  Ok (push_all (flat_map (sierpinski_row n) (range 0 n)) built).
Proof.
  intros Hn Hinit. unfold n_sierpinski. rewrite Hinit. cbn [bind].
  rewrite int_truediv_nonzero by lia. cbn [bind].
  apply for_each_push_all. intros i self _.
  unfold sierpinski_row. apply for_each_push. intros j self' _.
  rewrite int_truediv_nonzero by lia. cbn [bind].
  rewrite float_truediv_int_nonzero by lia. cbn [bind].
  reflexivity.
Qed.

(** The whole list that [polygon_ifs] builds. *)
Lemma polygon_ifs_functions (seed : option Image) (size n_vertices : Z)
    (include_center : bool) (built : Image_IFS) :
  n_vertices <> 0 ->
  init seed size true = Ok built ->
  polygon_ifs seed size n_vertices include_center =
  Ok (push_all (polygon_vertices n_vertices ++
                if include_center
                then [(PyFloat (round_ratio 2 n_vertices), (PyInt 0, PyInt 0))]
                else [])
               built).
Proof.
  intros Hn Hinit. unfold polygon_ifs. rewrite Hinit. cbn [bind].
  rewrite int_truediv_nonzero by assumption. cbn [bind].
  rewrite (for_each_push
             (fun k =>
                let angle :=
                  PrimFloat.mul (PrimFloat.mul pi (round_ratio 2 n_vertices))
                                (float_of_int k) in
                (PyFloat (round_ratio 2 n_vertices),
                 (PyFloat (PrimFloat.mul (round_ratio 2 n_vertices)
                                         (cos angle)),
                  PyFloat (PrimFloat.mul (round_ratio 2 n_vertices)
                                         (sin angle))))))
    by reflexivity.
  cbn [bind]. fold (polygon_vertices n_vertices).
  destruct include_center.
  - rewrite <- push_all_app. reflexivity.
  - now rewrite app_nil_r.
Qed.

End GeneratorFacts.

(** C4: for [n >= 1], on arguments the constructor accepts, [n_sierpinski]
    returns a renderer whose list holds exactly [n (n + 1) / 2]
    contractions, each with the scale [1 / n]. *)
Theorem C4_sierpinski_count_and_scale {R : Resampler} (seed : option Image)
    (size n : Z) (built : Image_IFS) :
  1 <= n ->
  init seed size false = Ok built ->
  exists self scale,
    n_sierpinski seed size n = Ok self /\
    int_truediv 1 n = Ok scale /\
    Z.of_nat (length (functions self)) = n * (n + 1) / 2 /\
    Forall (fun c => scale_of c = PyFloat scale) (functions self).
Proof.
  intros Hn Hinit.
  exists (push_all (flat_map (sierpinski_row n) (range 0 n)) built),
         (round_ratio 1 n).
  split; [now apply n_sierpinski_functions|].
  split; [apply int_truediv_nonzero; lia|].
  apply init_is_square in Hinit. destruct Hinit as (_ & _ & _ & Hfs & _).
  simpl. rewrite Hfs. simpl. split.
  - pose proof (@triangle_length contraction (sierpinski_row n) (Z.to_nat n))
      as Htri.
    specialize (Htri ltac:(intros i Hi; unfold sierpinski_row;
                           rewrite length_map, length_range; lia)).
    specialize (Htri (Z.to_nat n) 0%nat eq_refl).
    unfold range. rewrite Z.sub_0_r.
    set (l := length _) in *.
    assert (n * (n + 1) = Z.of_nat l * 2) as -> by nia.
    now rewrite Z.div_mul.
  - apply Forall_forall. intros c Hc.
    apply in_flat_map in Hc. destruct Hc as (i & _ & Hc).
    unfold sierpinski_row in Hc. apply in_map_iff in Hc.
    now destruct Hc as (j & <- & _).
Qed.

Lemma C4_sierpinski_count_and_scale_witness :
  exists self scale,
    n_sierpinski None 4 2 = Ok self /\
    int_truediv 1 2 = Ok scale /\
    Z.of_nat (length (functions self)) = 2 * (2 + 1) / 2 /\
    Forall (fun c => scale_of c = PyFloat scale) (functions self).
Proof.
  apply (@C4_sierpinski_count_and_scale NEAREST None 4 2
           (mkImage_IFS white4 white4 4 false [])).
  - lia.
  - reflexivity.
Defined.

(** C5: for [n_vertices >= 3], on arguments the constructor accepts,
    [polygon_ifs] without the centre returns a renderer whose list holds
    exactly [n_vertices] contractions, each with the scale [2 / n_vertices];
    with the centre, the list is that same list followed by the one
    contraction [(scale, (0, 0))]. *)
Theorem C5_polygon_count_and_scale {R : Resampler} {M : MathLib}
    (seed : option Image) (size n_vertices : Z) (built : Image_IFS) :
  3 <= n_vertices ->
  init seed size true = Ok built ->
  exists self scale,
    polygon_ifs seed size n_vertices false = Ok self /\
    int_truediv 2 n_vertices = Ok scale /\
    Z.of_nat (length (functions self)) = n_vertices /\
    Forall (fun c => scale_of c = PyFloat scale) (functions self) /\
    polygon_ifs seed size n_vertices true =
      Ok (push_all [(PyFloat scale, (PyInt 0, PyInt 0))] self).
Proof.
  intros Hn Hinit.
  exists (push_all (polygon_vertices n_vertices) built),
         (round_ratio 2 n_vertices).
  split.
  { rewrite (@polygon_ifs_functions R M seed size n_vertices false built)
      by (assumption || lia).
    now rewrite app_nil_r. }
  split; [apply int_truediv_nonzero; lia|].
  split; [|split].
  - apply init_is_square in Hinit. destruct Hinit as (_ & _ & _ & Hfs & _).
    simpl. rewrite Hfs. simpl. unfold polygon_vertices.
    rewrite length_map, length_range. lia.
  - apply init_is_square in Hinit. destruct Hinit as (_ & _ & _ & Hfs & _).
    simpl. rewrite Hfs. simpl.
    apply Forall_forall. intros c Hc.
    unfold polygon_vertices in Hc. apply in_map_iff in Hc.
    now destruct Hc as (k & <- & _).
  - rewrite (@polygon_ifs_functions R M seed size n_vertices true built)
      by (assumption || lia).
    now rewrite push_all_app.
Qed.

Lemma C5_polygon_count_and_scale_witness :
  exists self scale,
    polygon_ifs None 4 4 false = Ok self /\
    int_truediv 2 4 = Ok scale /\
    Z.of_nat (length (functions self)) = 4 /\
    Forall (fun c => scale_of c = PyFloat scale) (functions self) /\
    polygon_ifs None 4 4 true =
      Ok (push_all [(PyFloat scale, (PyInt 0, PyInt 0))] self).
Proof.
  apply (@C5_polygon_count_and_scale NEAREST series_math None 4 4
           (mkImage_IFS white4 white4 4 true [])).
  - lia.
  - reflexivity.
Defined.

(** ** When the last step does give an opaque buffer *)

Lemma nearest_copies_pixels : copies_pixels NEAREST.
Proof.
  intros im w h x y. simpl. eauto.
Qed.

Lemma div255_exact (v : Z) : 0 <= v <= 255 -> div255 (255 * v) = v.
Proof.
  intros Hv. unfold div255. rewrite !Z.shiftr_div_pow2 by lia.
  change (2 ^ 8) with 256.
  assert ((255 * v + 128) / 256 = v \/ (255 * v + 128) / 256 = v - 1) as Hq.
  { destruct (Z_le_gt_dec v 128).
    - left. symmetry. apply Z.div_unique with (r := 128 - v); lia.
    - right. symmetry. apply Z.div_unique with (r := 384 - v); lia. }
  destruct Hq as [-> | ->]; symmetry.
  - apply Z.div_unique with (r := 128); lia.
  - apply Z.div_unique with (r := 127); lia.
Qed.

Lemma blend8_mask_0 (d s : Z) : byte_range d -> blend8 0 d s = d.
Proof.
  intros Hd. unfold blend8.
  replace (d * (255 - 0) + s * 0) with (255 * d) by lia.
  now apply div255_exact.
Qed.

Lemma blend8_mask_255 (d s : Z) : byte_range s -> blend8 255 d s = s.
Proof.
  intros Hs. unfold blend8.
  replace (d * (255 - 255) + s * 255) with (255 * s) by lia.
  now apply div255_exact.
Qed.

Lemma blend_transparent_mask (d s : pixel) : pixel_ok d -> blend 0 d s = d.
Proof.
  intros (Hr & Hg & Hb & Ha). destruct d. unfold blend. simpl in *.
  now rewrite !blend8_mask_0.
Qed.

Lemma blend_opaque_mask (d s : pixel) : pixel_ok s -> blend 255 d s = s.
Proof.
  intros (Hr & Hg & Hb & Ha). destruct s. unfold blend. simpl in *.
  now rewrite !blend8_mask_255.
Qed.

Lemma all_pixels_build (P : pixel -> Prop) (w h : nat)
    (f : nat -> nat -> pixel) :
  (forall x y, (x < w)%nat -> (y < h)%nat -> P (f x y)) ->
  all_pixels P (build w h f).
Proof.
  intros Hf. unfold all_pixels, build. simpl.
  apply Forall_forall. intros row Hrow.
  apply in_map_iff in Hrow. destruct Hrow as [y [<- Hy]].
  apply in_seq in Hy.
  apply Forall_forall. intros p Hp.
  apply in_map_iff in Hp. destruct Hp as [x [<- Hx]].
  apply in_seq in Hx. apply Hf; lia.
Qed.

(** Reading a pixel, inside the image or not, gives a pixel of the image or
    the transparent one. *)
Lemma all_pixels_getpixel (P : pixel -> Prop) (im : Image) (x y : nat) :
  P (RGBA 0 0 0 0) -> all_pixels P im -> P (getpixel im x y).
Proof.
  intros H0 Hall. unfold getpixel.
  destruct (nth_in_or_default y (rows im) []) as [Hrow | ->].
  - unfold all_pixels in Hall. rewrite Forall_forall in Hall.
    specialize (Hall _ Hrow).
    destruct (nth_in_or_default x (nth y (rows im) []) (RGBA 0 0 0 0))
      as [Hp | ->]; [|exact H0].
    rewrite Forall_forall in Hall. now apply Hall.
  - now destruct x.
Qed.

Lemma all_pixels_flip (P : pixel -> Prop) (im : Image) :
  all_pixels P im -> all_pixels P (transpose_FLIP_TOP_BOTTOM im).
Proof.
  unfold all_pixels. simpl. apply Forall_rev.
Qed.

Lemma binary_alpha_transparent : binary_alpha (RGBA 0 0 0 0).
Proof.
  unfold binary_alpha, pixel_ok, byte_range. simpl. lia.
Qed.

Lemma binary_alpha_paste (dst src : Image) (box : Z * Z) :
  all_pixels binary_alpha dst -> all_pixels binary_alpha src ->
  all_pixels binary_alpha (paste dst src box).
Proof.
  intros Hd Hs. destruct box as [x0 y0]. unfold paste.
  apply all_pixels_build. intros x y _ _.
  destruct (_ && _);
    apply all_pixels_getpixel; auto using binary_alpha_transparent.
Qed.

(** With a mask that is transparent or opaque at each pixel, a masked paste
    keeps the destination's pixel or takes the source's. *)
Lemma binary_alpha_paste_mask (dst src : Image) :
  all_pixels binary_alpha dst -> all_pixels binary_alpha src ->
  all_pixels binary_alpha (paste_mask dst src src).
Proof.
  intros Hd Hs. unfold paste_mask.
  apply all_pixels_build. intros x y _ _.
  pose proof (@all_pixels_getpixel binary_alpha dst x y
                binary_alpha_transparent Hd) as Hpd.
  pose proof (@all_pixels_getpixel binary_alpha src x y
                binary_alpha_transparent Hs) as Hps.
  destruct (_ && _); [|exact Hpd].
  destruct Hps as [Hok [Ha | Ha]]; rewrite Ha.
  - rewrite blend_transparent_mask; [exact Hpd | apply Hpd].
  - rewrite blend_opaque_mask by exact Hok. split; auto.
Qed.

(** Over the black background of the last step, the same paste gives
    opaque pixels only. *)
Lemma opaque_over_black (w h : nat) (src : Image) :
  all_pixels binary_alpha src ->
  all_pixels opaque
             (paste_mask (build w h (fun _ _ => opaque_black)) src src).
Proof.
  intros Hs. unfold paste_mask. simpl width. simpl height.
  apply all_pixels_build. intros x y Hx Hy.
  rewrite getpixel_build by assumption.
  pose proof (@all_pixels_getpixel binary_alpha src x y
                binary_alpha_transparent Hs) as Hps.
  destruct (_ && _); [|reflexivity].
  destruct Hps as [Hok [Ha | Ha]]; rewrite Ha.
  - rewrite blend_transparent_mask; [reflexivity|].
    unfold pixel_ok, byte_range. simpl. lia.
  - rewrite blend_opaque_mask by exact Hok. exact Ha.
Qed.

Section OpaqueResult.

Context {R : Resampler} {K : Stack}.

Hypothesis R_copies : copies_pixels R.

Lemma binary_alpha_resize (im out : Image) (sz : Z * Z) :
  all_pixels binary_alpha im ->
  resize im sz = Ok out ->
  all_pixels binary_alpha out.
Proof.
  intros Him. destruct sz as [w h]. intros Hre.
  apply resize_ok_cases in Hre.
  destruct Hre as [[_ ->] | (_ & _ & _ & _ & ->)].
  - unfold copy. apply all_pixels_build. intros x y _ _.
    apply all_pixels_getpixel; auto using binary_alpha_transparent.
  - apply all_pixels_build. intros x y _ _.
    destruct (R_copies im (Z.to_nat w) (Z.to_nat h) x y) as (x' & y' & ->).
    apply all_pixels_getpixel; auto using binary_alpha_transparent.
Qed.

Lemma binary_alpha_new_transparent (sz : Z * Z) (im : Image) :
  new sz transparent = Ok im -> all_pixels binary_alpha im.
Proof.
  destruct sz as [w h]. unfold new.
  destruct (_ || _); [discriminate|]. intros [= <-].
  apply all_pixels_build. intros. apply binary_alpha_transparent.
Qed.

Lemma binary_alpha_apply_contraction (n : Z) (co : bool)
    (start canvas out : Image) (c : contraction) :
  all_pixels binary_alpha start ->
  all_pixels binary_alpha canvas ->
  apply_contraction n co start canvas c = Ok out ->
  all_pixels binary_alpha out.
Proof.
  intros Hstart Hcanvas. unfold apply_contraction.
  destruct (scaled_side n c) as [side|]; cbn [bind]; [|discriminate].
  destruct (resize start (side, side)) as [copy|] eqn:Hcopy; cbn [bind];
    [|discriminate].
  destruct (placement n co side c) as [offset|]; cbn [bind]; [|discriminate].
  destruct (new (n, n) transparent) as [layer|] eqn:Hlayer; cbn [bind];
    [|discriminate].
  destruct (paste_call layer copy offset) as [layer'|] eqn:Hpaste;
    cbn [bind]; [|discriminate].
  apply paste_call_ok in Hpaste. subst layer'.
  intros [= <-].
  apply binary_alpha_paste_mask; [assumption|].
  apply binary_alpha_paste.
  - eapply binary_alpha_new_transparent; exact Hlayer.
  - eapply binary_alpha_resize; [exact Hstart | exact Hcopy].
Qed.

Lemma binary_alpha_step (first_call : bool) (self : Image_IFS) (out : Image) :
  all_pixels binary_alpha (image self) ->
  step first_call self = Ok out ->
  all_pixels binary_alpha out.
Proof.
  intros Him. unfold step.
  destruct (new (image_size self, image_size self) transparent) as [canvas|]
    eqn:Hnew; cbn [bind]; [|discriminate].
  apply binary_alpha_new_transparent in Hnew.
  assert (all_pixels binary_alpha
            (if first_call then transpose_FLIP_TOP_BOTTOM (image self)
             else image self)) as Hstart
    by (destruct first_call; [now apply all_pixels_flip | assumption]).
  revert Hstart Hnew.
  generalize (if first_call then transpose_FLIP_TOP_BOTTOM (image self)
              else image self) as start.
  generalize (functions self) as fs. intros fs start Hstart. revert canvas.
  induction fs as [|c fs IH]; intros canvas Hcanvas; simpl.
  - now intros [= <-].
  - destruct (apply_contraction (image_size self) (center_origin self)
                                start canvas c) as [canvas'|] eqn:Hc;
      cbn [bind]; [|discriminate].
    apply IH.
    eapply binary_alpha_apply_contraction; [exact Hstart | exact Hcanvas | exact Hc].
Qed.

Lemma opaque_finalize (self after : Image_IFS) :
  all_pixels binary_alpha (image self) ->
  finalize self = Returned after ->
  all_pixels opaque (image after).
Proof.
  intros Him. unfold finalize, new.
  destruct (_ || _); [discriminate|]. intros [= <-]. simpl.
  apply all_pixels_flip. now apply opaque_over_black.
Qed.

Lemma opaque_iterate_passes (passes : nat) :
  forall room first_call self after,
    all_pixels binary_alpha (image self) ->
    (0 < passes)%nat \/ first_call = false ->
    iterate_passes room passes first_call self = Returned after ->
    all_pixels opaque (image after).
Proof.
  induction passes as [|passes IH];
    intros room first_call self after Him Hcall; cbn [iterate_passes].
  - destruct Hcall as [Hpos | ->]; [lia|]. now apply opaque_finalize.
  - destruct (step first_call self) as [new_image|] eqn:Hstep;
      [|discriminate].
    destruct room as [|room']; [discriminate|].
    apply IH; [|now right]. simpl.
    eapply binary_alpha_step; [exact Him | exact Hstep].
Qed.

(** Where the claim of C2 does hold: when every pixel of the buffer is fully
    transparent or fully opaque and the filter of [resize] only copies
    pixels, a call [iterate(k)] with [k >= 1] that returns leaves a buffer
    with alpha 255 everywhere. *)
Lemma opaque_after_iterate (k : Z) (self after : Image_IFS) :
  all_pixels binary_alpha (image self) ->
  1 <= k ->
  iterate k true self = Returned after ->
  all_pixels opaque (image after).
Proof.
  intros Him Hk. unfold iterate, iterate_within.
  destruct (k <? 0) eqn:Hneg; [apply Z.ltb_lt in Hneg; lia|].
  apply opaque_iterate_passes; [assumption | left; lia].
Qed.

End OpaqueResult.

(** The NEAREST filter is such a filter, so the buffers it produces from a
    seed without translucent pixels end opaque. *)
Lemma opaque_after_iterate_nearest {K : Stack} (k : Z)
    (self after : Image_IFS) :
  all_pixels binary_alpha (image self) ->
  1 <= k ->
  iterate k true self = Returned after ->
  all_pixels opaque (image after).
Proof.
  apply opaque_after_iterate. exact nearest_copies_pixels.
Qed.

(** * Further properties of the renderer *)

Section IterateOutcome.

Context {R : Resampler} {K : Stack}.

(** X1: a call of [iterate], whether it returns or raises, changes no
    attribute of the object but the buffer. *)
Theorem iterate_changes_only_image (n : Z) (first_call : bool)
    (self : Image_IFS) :
  same_but_image self (object_after (iterate n first_call self)).
Proof.
  unfold iterate, iterate_within. destruct (n <? 0); [now repeat split|].
  generalize (Z.to_nat n) as passes. generalize recursion_room as room.
  intros room passes. revert room first_call self.
  induction passes as [|passes IH]; intros room first_call self;
    cbn [iterate_passes].
  - destruct first_call; [now repeat split|].
    unfold finalize.
    destruct (new (image_size self, image_size self) opaque_black);
      now repeat split.
  - destruct (step first_call self) as [new_image|e]; [|now repeat split].
    destruct room as [|room']; [now repeat split|].
    destruct (IH room' false (set_image self new_image)) as (H1 & H2 & H3 & H4).
    simpl in *. now repeat split.
Qed.

Lemma usable_same_size (a b : Image) (n : Z) (co : bool) (c : contraction) :
  size a = size b -> usable a n co c -> usable b n co c.
Proof.
  intros Hsize (side & dx & dy & Hside & Hdx & Hdy & Hfit & Hbox).
  exists side, dx, dy. rewrite <- Hsize.
  split; [exact Hside|]. split; [exact Hdx|]. split; [exact Hdy|].
  split; [exact Hfit | exact Hbox].
Qed.

(** Whether a contraction can be applied depends on the size of the buffer
    the pass started from, and on nothing else of the images. *)
Lemma apply_contraction_ok_iff (n : Z) (co : bool) (start canvas : Image)
    (c : contraction) :
  0 <= n ->
  (exists out, apply_contraction n co start canvas c = Ok out) <->
  usable start n co c.
Proof.
  intros Hn. unfold usable, apply_contraction, placement. split.
  - intros [out Hout].
    destruct (scaled_side n c) as [side|]; cbn [bind] in Hout;
      [|discriminate].
    destruct (resize start (side, side)) as [copy|] eqn:Hre;
      cbn [bind] in Hout; [|discriminate].
    destruct (int (mul_int (fst (snd c)) n)) as [dx|]; cbn [bind] in Hout;
      [|discriminate].
    destruct (int (mul_int (snd (snd c)) n)) as [dy|]; cbn [bind] in Hout;
      [|discriminate].
    rewrite new_square in Hout by assumption. cbn [bind] in Hout.
    exists side, dx, dy.
    split; [reflexivity|]. split; [reflexivity|]. split; [reflexivity|].
    split; [apply resize_ok_iff; eauto|].
    pose proof (@resize_is_square R start copy side Hre) as [Hsize _].
    unfold size in Hsize. injection Hsize as Hw Hh.
    unfold paste_call in Hout. rewrite Hw, Hh in Hout.
    cbv zeta.
    destruct (c_int ((if co then side else 0) + dx)); [|discriminate].
    destruct (c_int ((if co then side else 0) + dy)); [|discriminate].
    destruct (c_int ((if co then side else 0) + dx + side)); [|discriminate].
    destruct (c_int ((if co then side else 0) + dy + side)); [|discriminate].
    now repeat split.
  - intros (side & dx & dy & -> & -> & -> & Hside & Hbox). cbn [bind].
    apply resize_ok_iff in Hside. destruct Hside as [copy Hre].
    rewrite Hre. cbn [bind].
    rewrite new_square by assumption. cbn [bind].
    pose proof (@resize_is_square R start copy side Hre) as [Hsize _].
    unfold size in Hsize. injection Hsize as Hw Hh.
    cbv zeta in Hbox. destruct Hbox as (H1 & H2 & H3 & H4).
    rewrite paste_call_inside by (rewrite ?Hw, ?Hh; assumption).
    cbn [bind]. eauto.
Qed.

Lemma apply_contractions_ok_iff (n : Z) (co : bool) (start : Image)
    (fs : list contraction) :
  0 <= n ->
  forall canvas,
    (exists out, apply_contractions n co start canvas fs = Ok out) <->
    Forall (usable start n co) fs.
Proof.
  intros Hn. induction fs as [|c fs IH]; intros canvas; simpl.
  - split; [constructor | eauto].
  - split.
    + intros [out Hout].
      destruct (apply_contraction n co start canvas c) as [canvas'|] eqn:Hc;
        cbn [bind] in Hout; [|discriminate].
      constructor.
      * apply (apply_contraction_ok_iff co start canvas c Hn). eauto.
      * apply (IH canvas'). eauto.
    + intros Hall. inversion Hall as [|c' fs' Hc Hfs]; subst.
      apply (apply_contraction_ok_iff co start canvas c Hn) in Hc.
      destruct Hc as [canvas' ->]. cbn [bind]. now apply IH.
Qed.

(** A pass completes exactly when the side is not negative and every
    contraction is usable on the buffer. *)
Lemma step_ok_iff (first_call : bool) (self : Image_IFS) :
  (exists out, step first_call self = Ok out) <->
  0 <= image_size self /\
  Forall (usable (image self) (image_size self) (center_origin self))
         (functions self).
Proof.
  assert (forall c,
            usable (if first_call then transpose_FLIP_TOP_BOTTOM (image self)
                    else image self)
                   (image_size self) (center_origin self) c <->
            usable (image self) (image_size self) (center_origin self) c)
    as Hstart.
  { intros c. split; apply usable_same_size; now destruct first_call. }
  unfold step. split.
  - intros [out Hout].
    assert (0 <= image_size self) as Hn.
    { unfold new in Hout.
      destruct (image_size self <? 0) eqn:E; cbn [orb bind] in Hout;
        [discriminate | now apply Z.ltb_ge in E]. }
    split; [assumption|].
    rewrite new_square in Hout by assumption. cbn [bind] in Hout.
    eapply Forall_impl; [intros c; apply Hstart|].
    eapply apply_contractions_ok_iff; eauto.
  - intros [Hn Hall]. rewrite new_square by assumption. cbn [bind].
    apply apply_contractions_ok_iff; [assumption|].
    eapply Forall_impl; [intros c; apply Hstart | exact Hall].
Qed.



(** A call that returns made no more nested calls than the stack has room
    for. *)
Lemma iterate_passes_room (passes : nat) :
  forall room first_call self after,
    iterate_passes room passes first_call self = Returned after ->
    (passes <= room)%nat.
Proof.
  induction passes as [|passes IH]; intros room first_call self after;
    cbn [iterate_passes]; [lia|].
  destruct (step first_call self) as [new_image|]; [|discriminate].
  destruct room as [|room']; [discriminate|].
  intros Hret. apply IH in Hret. lia.
Qed.


(** X2: a call [iterate(n)] with [n >= 1] returns only if [n] nested calls
    fit on the stack, [image_size] is not negative and every contraction of
    the list is usable on the buffer: its products with [image_size] convert
    to ints, the side of its copy is the side of the buffer or a C int from
    1, and the edges of the box where the copy is pasted are C ints. *)
Theorem iterate_returns_only_if (n : Z) (first_call : bool)
    (self after : Image_IFS) :
  1 <= n ->
  iterate n first_call self = Returned after ->
  n <= Z.of_nat recursion_room /\
  0 <= image_size self /\
  Forall (usable (image self) (image_size self) (center_origin self))
         (functions self).
Proof.
  intros Hn. unfold iterate, iterate_within.
  destruct (n <? 0) eqn:Hneg; [apply Z.ltb_lt in Hneg; lia|].
  intros Hret. split.
  - apply iterate_passes_room in Hret. lia.
  - apply (step_ok_iff first_call self).
    replace (Z.to_nat n) with (S (Z.to_nat (n - 1))) in Hret by lia.
    cbn [iterate_passes] in Hret.
    destruct (step first_call self) as [new_image|]; [eauto | discriminate].
Qed.


End IterateOutcome.

(** ** What one contraction does to the canvas *)

Lemma getpixel_pixel_ok (im : Image) (x y : nat) :
  all_pixels pixel_ok im -> pixel_ok (getpixel im x y).
Proof.
  intros Hall. apply all_pixels_getpixel; [|assumption].
  unfold pixel_ok, byte_range. simpl. lia.
Qed.

(** X4: one contraction applied to a canvas.  Outside the box where the copy
    is pasted the canvas keeps its pixel.  Inside the box an opaque pixel of
    the copy replaces whatever the earlier contractions left, and a fully
    transparent pixel of the copy leaves the canvas as it was: a later
    contraction hides an earlier one only where it is opaque. *)
Theorem apply_contraction_pixel {R : Resampler} (n : Z) (co : bool)
    (start canvas copy out : Image) (c : contraction) (side ox oy : Z)
    (x y : nat) :
  is_square n canvas ->
  all_pixels pixel_ok canvas ->
  all_pixels pixel_ok copy ->
  scaled_side n c = Ok side ->
  resize start (side, side) = Ok copy ->
  placement n co side c = Ok (ox, oy) ->
  apply_contraction n co start canvas c = Ok out ->
  (x < Z.to_nat n)%nat -> (y < Z.to_nat n)%nat ->
  let p := getpixel copy (Z.to_nat (Z.of_nat x - ox))
                         (Z.to_nat (Z.of_nat y - oy)) in
  (~ in_box ox oy side x y -> getpixel out x y = getpixel canvas x y) /\
  (in_box ox oy side x y -> alpha p = 0 ->
   getpixel out x y = getpixel canvas x y) /\
  (in_box ox oy side x y -> alpha p = 255 -> getpixel out x y = p).
Proof.
  intros [Hsize _] Hcanvas Hcopy Hside Hre Hplace Happly Hx Hy p.
  assert (width canvas = Z.to_nat n /\ height canvas = Z.to_nat n)
    as [Hw Hh].
  { unfold size in Hsize. injection Hsize as Hw Hh. lia. }
  assert (0 <= n) as Hn by (unfold size in Hsize; injection Hsize; lia).
  pose proof (@resize_is_square R start copy side Hre) as [Hcsize _].
  assert (Z.of_nat (width copy) = side /\ Z.of_nat (height copy) = side)
    as [Hcw Hch] by (unfold size in Hcsize; now injection Hcsize).
  unfold apply_contraction in Happly.
  rewrite Hside in Happly. cbn [bind] in Happly.
  rewrite Hre in Happly. cbn [bind] in Happly.
  rewrite Hplace in Happly. cbn [bind] in Happly.
  rewrite new_square in Happly by assumption. cbn [bind] in Happly.
  destruct (paste_call _ copy (ox, oy)) as [layer|] eqn:Hpaste;
    cbn [bind] in Happly; [|discriminate].
  apply paste_call_ok in Hpaste. subst layer.
  injection Happly as <-.
  unfold paste_mask. rewrite Hw, Hh.
  rewrite getpixel_build by assumption.
  unfold paste. cbn [width height build].
  apply Nat.ltb_lt in Hx, Hy. rewrite Hx, Hy. cbn [andb].
  apply Nat.ltb_lt in Hx, Hy.
  rewrite !getpixel_build by assumption.
  rewrite Hcw, Hch.
  pose proof (@getpixel_pixel_ok canvas x y Hcanvas) as Hpc.
  unfold in_box.
  destruct ((0 <=? Z.of_nat x - ox) && (Z.of_nat x - ox <? side) &&
            (0 <=? Z.of_nat y - oy) && (Z.of_nat y - oy <? side))
    eqn:Hin.
  - apply andb_prop in Hin. destruct Hin as [Hin H4].
    apply andb_prop in Hin. destruct Hin as [Hin H3].
    apply andb_prop in Hin. destruct Hin as [H1 H2].
    apply Z.leb_le in H1, H3. apply Z.ltb_lt in H2, H4.
    fold p. split; [intros Hout; exfalso; apply Hout; lia|].
    split; intros _ Ha; rewrite Ha.
    + now apply blend_transparent_mask.
    + apply blend_opaque_mask. apply getpixel_pixel_ok. exact Hcopy.
  - split; [|split].
    + intros _. change (alpha transparent) with 0.
      now apply blend_transparent_mask.
    + intros [[Ha Hb] [Hc Hd]]. exfalso.
      apply andb_false_iff in Hin. destruct Hin as [Hin | Hin].
      * apply andb_false_iff in Hin. destruct Hin as [Hin | Hin].
        -- apply andb_false_iff in Hin. destruct Hin as [Hin | Hin].
           ++ apply Z.leb_gt in Hin. lia.
           ++ apply Z.ltb_ge in Hin. lia.
        -- apply Z.leb_gt in Hin. lia.
      * apply Z.ltb_ge in Hin. lia.
    + intros [[Ha Hb] [Hc Hd]]. exfalso.
      apply andb_false_iff in Hin. destruct Hin as [Hin | Hin].
      * apply andb_false_iff in Hin. destruct Hin as [Hin | Hin].
        -- apply andb_false_iff in Hin. destruct Hin as [Hin | Hin].
           ++ apply Z.leb_gt in Hin. lia.
           ++ apply Z.ltb_ge in Hin. lia.
        -- apply Z.leb_gt in Hin. lia.
      * apply Z.ltb_ge in Hin. lia.
Qed.

(** ** The contraction that changes nothing *)

Lemma list_tabulate_nth {A : Type} (d : A) (l : list A) :
  map (fun i => nth i l d) (seq 0 (length l)) = l.
Proof.
  apply nth_ext with (d := d) (d' := d).
  - now rewrite length_map, length_seq.
  - intros i Hi. rewrite length_map, length_seq in Hi.
    rewrite (nth_indep _ d (nth 0 l d)) by now rewrite length_map, length_seq.
    rewrite (map_nth (fun i => nth i l d)). now rewrite seq_nth.
Qed.

(** Reading every pixel of an image back builds the same image. *)
Lemma build_getpixel (im : Image) :
  well_sized im -> build (width im) (height im) (getpixel im) = im.
Proof.
  destruct im as [w h rs]. intros [Hlen Hrows]. simpl in *.
  unfold build, getpixel. simpl. f_equal. subst h.
  etransitivity; [|apply (list_tabulate_nth [] rs)].
  apply map_ext_in. intros y Hy. apply in_seq in Hy.
  rewrite Forall_forall in Hrows.
  rewrite <- (Hrows (nth y rs [])) by (apply nth_In; lia).
  apply list_tabulate_nth.
Qed.

(** At the size of the source, [resize] gives the source back, whatever the
    filter. *)
Lemma resize_same_size {R : Resampler} (n : Z) (im : Image) :
  is_square n im -> resize im (n, n) = Ok im.
Proof.
  intros [Hsize Hws]. unfold resize.
  unfold size in Hsize. injection Hsize as Hw Hh.
  rewrite Hw, Hh, Z.eqb_refl. cbn [andb].
  unfold copy. now rewrite build_getpixel.
Qed.

Lemma paste_same_size (n : nat) (c : pixel) (im : Image) :
  width im = n -> height im = n -> well_sized im ->
  paste (build n n (fun _ _ => c)) im (0, 0) = im.
Proof.
  intros Hw Hh Hws. unfold paste. cbn [width height build].
  etransitivity; [|apply (build_getpixel Hws)]. rewrite Hw, Hh.
  apply build_ext. intros x y Hx Hy.
  rewrite !Z.sub_0_r, !Nat2Z.id.
  destruct (Z.leb_spec 0 (Z.of_nat x)); [|lia].
  destruct (Z.ltb_spec (Z.of_nat x) (Z.of_nat n)); [|lia].
  destruct (Z.leb_spec 0 (Z.of_nat y)); [|lia].
  destruct (Z.ltb_spec (Z.of_nat y) (Z.of_nat n)); [|lia].
  reflexivity.
Qed.

(** An opaque image pasted with itself as mask replaces the destination. *)
Lemma paste_mask_opaque (dst im : Image) :
  width dst = width im -> height dst = height im -> well_sized im ->
  all_pixels (fun p => pixel_ok p /\ opaque p) im ->
  paste_mask dst im im = im.
Proof.
  intros Hw Hh Hws Hall. unfold paste_mask. rewrite Hw, Hh.
  etransitivity; [|apply (build_getpixel Hws)].
  apply build_ext. intros x y Hx Hy.
  apply Nat.ltb_lt in Hx, Hy. rewrite Hx, Hy. cbn [andb].
  apply Nat.ltb_lt in Hx, Hy.
  assert (In (nth y (rows im) []) (rows im)) as Hrow
    by (apply nth_In; destruct Hws as [-> _]; exact Hy).
  assert (In (getpixel im x y) (nth y (rows im) [])) as Hp.
  { unfold getpixel. apply nth_In. destruct Hws as [_ Hrows].
    rewrite Forall_forall in Hrows. now rewrite (Hrows _ Hrow). }
  unfold all_pixels in Hall. rewrite Forall_forall in Hall.
  specialize (Hall _ Hrow). rewrite Forall_forall in Hall.
  destruct (Hall _ Hp) as [Hok Ha]. unfold opaque in Ha. rewrite Ha.
  now apply blend_opaque_mask.
Qed.

Section IdentityContraction.

Context {R : Resampler} {K : Stack}.

Lemma identity_step (first_call : bool) (self : Image_IFS) :
  1 <= image_size self < 2 ^ 31 ->
  center_origin self = false ->
  functions self = [(PyInt 1, (PyInt 0, PyInt 0))] ->
  forall start,
    start = (if first_call then transpose_FLIP_TOP_BOTTOM (image self)
             else image self) ->
    is_square (image_size self) start ->
    all_pixels (fun p => pixel_ok p /\ opaque p) start ->
    step first_call self = Ok start.
Proof.
  intros Hn Hco Hfs start Hstart Hsq Hall. unfold step.
  rewrite <- Hstart, Hfs, Hco. rewrite new_square by lia. cbn [bind].
  cbn [apply_contractions]. unfold apply_contraction, scaled_side, placement.
  cbn [fst snd mul_int int bind]. rewrite Z.mul_1_l, Z.mul_0_l.
  rewrite resize_same_size by assumption. cbn [bind].
  rewrite new_square by lia. cbn [bind].
  destruct Hsq as [Hsize Hws]. unfold size in Hsize.
  injection Hsize as Hw Hh.
  rewrite paste_call_inside
    by (rewrite ?Hw, ?Hh; apply c_int_bounds; lia).
  cbn [bind].
  rewrite paste_same_size by (assumption || lia).
  rewrite paste_mask_opaque; (reflexivity || assumption || idtac).
  - cbn [width build]. lia.
  - cbn [height build]. lia.
Qed.

Lemma set_image_same (self : Image_IFS) : set_image self (image self) = self.
Proof.
  now destruct self.
Qed.

Lemma identity_finalize (self : Image_IFS) :
  identity_setting self ->
  finalize self =
  Returned (set_image self (transpose_FLIP_TOP_BOTTOM (image self))).
Proof.
  intros (Hn & [Hsize Hws] & Hall & _ & _). unfold finalize.
  rewrite new_square by lia.
  unfold size in Hsize. injection Hsize as Hw Hh.
  rewrite paste_mask_opaque; (reflexivity || assumption || idtac).
  - cbn [width build]. lia.
  - cbn [height build]. lia.
Qed.

Lemma identity_passes (passes : nat) (self : Image_IFS) :
  identity_setting self ->
  forall room,
    (passes <= room)%nat ->
    iterate_passes room passes false self =
    Returned (set_image self (transpose_FLIP_TOP_BOTTOM (image self))).
Proof.
  intros Hid.
  induction passes as [|passes IH]; intros room Hroom; cbn [iterate_passes].
  - now apply identity_finalize.
  - destruct room as [|room']; [lia|].
    destruct Hid as (Hn & Hsq & Hall & Hco & Hfs).
    rewrite (@identity_step false self Hn Hco Hfs (image self))
      by (reflexivity || assumption).
    rewrite set_image_same. apply IH. lia.
Qed.

End IdentityContraction.

(** X5: with the single contraction of scale 1 at the origin, the origin in
    the corner and an opaque square buffer, a first call [iterate(n)] with
    [n >= 1], and with [n] no more than the number of nested calls the stack
    has room for, returns the object exactly as it was, whatever the filter
    of [resize]: the copy has the size of the buffer and fills the canvas,
    and the two flips cancel. *)
Theorem identity_contraction_reproduces {R : Resampler} {K : Stack} (n : Z)
    (self : Image_IFS) :
  identity_setting self ->
  1 <= n ->
  n <= Z.of_nat recursion_room ->
  iterate n true self = Returned self.
Proof.
  intros Hid Hn Hroom. unfold iterate, iterate_within.
  destruct (n <? 0) eqn:Hneg; [apply Z.ltb_lt in Hneg; lia|].
  replace (Z.to_nat n) with (S (Z.to_nat (n - 1))) by lia.
  destruct recursion_room as [|room'] eqn:Hroom'; [lia|].
  cbn [iterate_passes].
  pose proof Hid as (Hside & Hsq & Hall & Hco & Hfs).
  rewrite (@identity_step R true self Hside Hco Hfs
             (transpose_FLIP_TOP_BOTTOM (image self)));
    [|reflexivity | now apply flip_is_square | now apply all_pixels_flip].
  rewrite identity_passes.
  - simpl. rewrite flip_involutive. now destruct self.
  - split; [exact Hside|].
    split; [now apply flip_is_square|].
    split; [now apply all_pixels_flip|].
    split; assumption.
  - lia.
Qed.

(** ** The default seed *)

(** X6: while the buffer is still the default white seed, a call
    [iterate(k)] with [k >= 1] that returns leaves an opaque buffer,
    whatever the contractions are, for every filter of [resize] that only
    copies pixels. *)
Theorem default_seed_ends_opaque {R : Resampler} {K : Stack} (k : Z)
    (self after : Image_IFS) :
  copies_pixels R ->
  _default_seed (image_size self) = Ok (image self) ->
  1 <= k ->
  iterate k true self = Returned after ->
  all_pixels opaque (image after).
Proof.
  intros Hcopies Hseed Hk Hret.
  apply (@opaque_after_iterate R K Hcopies k self after); try assumption.
  unfold _default_seed, new in Hseed.
  destruct (_ || _); [discriminate|]. injection Hseed as <-.
  apply all_pixels_build. intros x y _ _.
  unfold binary_alpha, pixel_ok, byte_range. simpl. lia.
Qed.

(** ** The constructor and the generators at the edges *)

(** X7: the constructor.  With the default seed, a negative [image_size]
    raises [ValueError].  A given seed whose size is already [image_size] by
    [image_size] is copied, whatever that size is; a given seed of another
    size raises [OverflowError] when [image_size] is no C int, and
    [ValueError] when it is a C int below 1.  Whenever the constructor returns,
    the object has the requested attributes, an empty list of contractions,
    and its seed as its buffer, a square of [image_size] by [image_size]
    pixels: the white square, the copy, or the seed resampled to a side
    from 1. *)
Theorem init_returns_or_raises {R : Resampler} (seed : option Image) (n : Z)
    (co : bool) :
  match seed with
  | None => n < 0 -> init seed n co = Raise ValueError
  | Some im =>
      (size im = (n, n) ->
       init seed n co = Ok (mkImage_IFS (copy im) (copy im) n co [])) /\
      (size im <> (n, n) -> n < - 2 ^ 31 \/ 2 ^ 31 <= n ->
       init seed n co = Raise OverflowError) /\
      (size im <> (n, n) -> - 2 ^ 31 <= n < 1 ->
       init seed n co = Raise ValueError)
  end /\
  (forall self,
     init seed n co = Ok self ->
     exists im,
       self = mkImage_IFS im im n co [] /\ is_square n im /\
       match seed with
       | None => im = build (Z.to_nat n) (Z.to_nat n) (fun _ _ => opaque_white)
       | Some given =>
           (size given = (n, n) -> im = copy given) /\
           (size given <> (n, n) ->
            1 <= n < 2 ^ 31 /\
            im = build (Z.to_nat n) (Z.to_nat n)
                       (sample given (Z.to_nat n) (Z.to_nat n)))
       end).
Proof.
  assert (forall im : Image,
            (Z.of_nat (width im) =? n) && (Z.of_nat (height im) =? n) = true
            <-> size im = (n, n)) as Hsame.
  { intros im. unfold size. rewrite andb_true_iff, !Z.eqb_eq. split.
    - now intros [-> ->].
    - intros [= -> Hh]. now split. }
  split.
  - destruct seed as [im|]; unfold init.
    + split; [|split].
      * intros Hsize. apply Hsame in Hsize. unfold resize.
        now rewrite Hsize.
      * intros Hsize Hn. unfold resize.
        destruct (_ && _) eqn:E in |- *; [apply Hsame in E; contradiction|].
        assert (c_int n = false) as ->; [|reflexivity].
        destruct (c_int n) eqn:Hc; [|reflexivity].
        apply c_int_bounds in Hc. lia.
      * intros Hsize Hn. unfold resize.
        destruct (_ && _) eqn:E in |- *; [apply Hsame in E; contradiction|].
        assert (c_int n = true) as -> by (apply c_int_bounds; lia).
        cbn [andb negb].
        destruct (Z.ltb_spec n 1) as [_|Hge]; [reflexivity | lia].
    + intros Hn. unfold _default_seed, new.
      destruct (Z.ltb_spec n 0) as [_|Hge]; [reflexivity | lia].
  - intros self Hinit.
    pose proof (@init_is_square R seed n co self Hinit)
      as (Hn & Him & Hco & Hfs & Hsq).
    exists (image self).
    split; [destruct self; simpl in *; congruence|].
    split; [exact Hsq|].
    unfold init in Hinit. destruct seed as [given|].
    + unfold resize in Hinit.
      destruct ((Z.of_nat (width given) =? n) && (Z.of_nat (height given) =? n))
        eqn:E.
      * cbn [bind] in Hinit. injection Hinit as <-. cbn [image].
        apply Hsame in E. split; [reflexivity | contradiction].
      * destruct (c_int n) eqn:Hc; cbn [andb negb bind] in Hinit;
          [|discriminate].
        destruct (Z.ltb_spec n 1); cbn [orb bind] in Hinit; [discriminate|].
        injection Hinit as <-. cbn [image]. split.
        -- intros Hsize. apply Hsame in Hsize. congruence.
        -- intros _. apply c_int_bounds in Hc. split; [lia | reflexivity].
    + unfold _default_seed, new in Hinit.
      destruct (Z.ltb_spec n 0) as [|Hge]; cbn [orb bind] in Hinit;
        [discriminate|].
      injection Hinit as <-. reflexivity.
Qed.

(** X8: [n_sierpinski] checks nothing about [n].  With [n = 0] it raises
    [ZeroDivisionError], from [1 / n], after the renderer is built; with a
    negative [n] it returns the renderer with an empty list of
    contractions. *)
Theorem n_sierpinski_without_rows {R : Resampler} (seed : option Image)
    (size n : Z) (built : Image_IFS) :
  init seed size false = Ok built ->
  n <= 0 ->
  n_sierpinski seed size n =
  if n =? 0 then Raise ZeroDivisionError else Ok built.
Proof.
  intros Hinit Hn. unfold n_sierpinski. rewrite Hinit. cbn [bind].
  unfold int_truediv. destruct (Z.eqb_spec n 0) as [->|Hnz]; [reflexivity|].
  cbn [bind]. unfold range.
  replace (Z.to_nat (n - 0)) with 0%nat by lia. reflexivity.
Qed.

(** X9: [polygon_ifs] checks nothing about [n_vertices].  With 0 it raises
    [ZeroDivisionError], from [2 / n_vertices]; with a negative number it
    adds no vertex, and with [include_center] the list is the single
    contraction at the centre, whose scale [2 / n_vertices] is negative. *)
Theorem polygon_ifs_without_vertices {R : Resampler} {M : MathLib}
    (seed : option Image) (size n_vertices : Z) (include_center : bool)
    (built : Image_IFS) :
  init seed size true = Ok built ->
  n_vertices <= 0 ->
  polygon_ifs seed size n_vertices include_center =
  if n_vertices =? 0 then Raise ZeroDivisionError
  else if include_center
       then Ok (push_all [(PyFloat (round_ratio 2 n_vertices),
                           (PyInt 0, PyInt 0))] built)
       else Ok built.
Proof.
  intros Hinit Hn. unfold polygon_ifs. rewrite Hinit. cbn [bind].
  unfold int_truediv.
  destruct (Z.eqb_spec n_vertices 0) as [->|Hnz]; [reflexivity|].
  cbn [bind]. unfold range.
  replace (Z.to_nat (n_vertices - 0)) with 0%nat by lia.
  cbn [seq map for_each bind]. now destruct include_center.
Qed.

(** * Pascal's triangle modulo m *)

(** ** [choose] *)

Lemma binom_above (n : nat) : forall k, (n < k)%nat -> binom n k = 0%nat.
Proof.
  induction n as [|n IH]; intros k Hk; destruct k as [|k]; simpl;
    try lia.
  rewrite !IH by lia. reflexivity.
Qed.

Lemma binom_diagonal (n : nat) : binom n n = 1%nat.
Proof.
  induction n as [|n IH]; simpl; [reflexivity|].
  rewrite IH, (@binom_above n (S n)) by lia. reflexivity.
Qed.

(** The number of the triangle times [k! (n - k)!] is [n!]. *)
Lemma binom_fact (n : nat) :
  forall k, (k <= n)%nat ->
            (binom n k * (fact k * fact (n - k)) = fact n)%nat.
Proof.
  induction n as [|n IH]; intros k Hk.
  - assert (k = 0%nat) as -> by lia. reflexivity.
  - destruct k as [|k].
    + simpl binom. rewrite Nat.sub_0_r. simpl fact at 1. lia.
    + destruct (Nat.eq_dec k n) as [->|Hne].
      * cbn [binom]. rewrite (@binom_above n (S n)) by lia.
        pose proof (IH n (le_n n)) as Hd.
        rewrite Nat.sub_diag in *. rewrite Nat.add_0_r.
        change (fact (S n)) with (S n * fact n)%nat. nia.
      * pose proof (IH k ltac:(lia)) as H1.
        pose proof (IH (S k) ltac:(lia)) as H2.
        cbn [binom].
        change (S n - S k)%nat with (n - k)%nat.
        replace (n - k)%nat with (S (n - S k)) in * by lia.
        change (fact (S n)) with (S n * fact n)%nat.
        change (fact (S (n - S k))) with (S (n - S k) * fact (n - S k))%nat
          in *.
        change (fact (S k)) with (S k * fact k)%nat in *.
        assert (S n = S k + S (n - S k))%nat as Hsum by lia.
        rewrite Hsum at 1. nia.
Qed.

Lemma fact_positive (n : nat) : (0 < fact n)%nat.
Proof.
  induction n as [|n IH]; simpl; lia.
Qed.

(** On [0 <= k <= n], [choose] returns the number of the triangle. *)
Lemma choose_binom (n k : Z) :
  0 <= k <= n ->
  choose n k = Value (Z.of_nat (binom (Z.to_nat n) (Z.to_nat k))).
Proof.
  intros [Hk Hn]. unfold choose.
  destruct (Z.ltb_spec n k); [lia|].
  destruct (Z.ltb_spec n 0); [lia|].
  destruct (Z.ltb_spec k 0); [lia|].
  unfold factorial.
  destruct (Z.ltb_spec n 0); [lia|].
  destruct (Z.ltb_spec k 0); [lia|].
  destruct (Z.ltb_spec (n - k) 0); [lia|].
  cbn [and_next]. f_equal.
  replace (Z.to_nat (n - k)) with (Z.to_nat n - Z.to_nat k)%nat by lia.
  rewrite <- (@binom_fact (Z.to_nat n) (Z.to_nat k)) by lia.
  rewrite <- Nat2Z.inj_mul, Nat2Z.inj_mul.
  apply Z.div_mul.
  pose proof (fact_positive (Z.to_nat k)).
  pose proof (fact_positive (Z.to_nat n - Z.to_nat k)). nia.
Qed.

(** X10: on [n >= 0], [choose] gives the numbers of Pascal's triangle: 1 at
    both ends of the row, and inside the row each number is the sum of the
    two above it. *)
Theorem choose_pascal_rule (n : Z) :
  0 <= n ->
  choose n 0 = Value 1 /\
  choose n n = Value 1 /\
  forall k, 0 <= k < n ->
    exists a b,
      choose n k = Value a /\ choose n (k + 1) = Value b /\
      choose (n + 1) (k + 1) = Value (a + b).
Proof.
  intros Hn. split; [|split].
  - rewrite choose_binom by lia. simpl.
    now destruct (Z.to_nat n).
  - rewrite choose_binom by lia. now rewrite binom_diagonal.
  - intros k Hk.
    exists (Z.of_nat (binom (Z.to_nat n) (Z.to_nat k))),
           (Z.of_nat (binom (Z.to_nat n) (Z.to_nat (k + 1)))).
    rewrite !choose_binom by lia. repeat split.
    replace (Z.to_nat (n + 1)) with (S (Z.to_nat n)) by lia.
    replace (Z.to_nat (k + 1)) with (S (Z.to_nat k)) by lia.
    cbn [binom]. now rewrite Nat2Z.inj_add.
Qed.

(** X11: which arguments [choose] accepts.  It returns exactly on
    [0 <= k <= n].  It raises [ValueError] when [n < k] or [n < 0].  On
    [k < 0 <= n] the third test is reached and its message cannot be built:
    the call raises [NameError], not [ValueError]. *)
Theorem choose_outcomes (n k : Z) :
  (0 <= k <= n -> exists c, choose n k = Value c /\ 1 <= c) /\
  (n < k \/ n < 0 -> choose n k = Error (Builtin ValueError)) /\
  (k < 0 <= n -> choose n k = Error NameError).
Proof.
  split; [|split].
  - intros Hkn. rewrite choose_binom by assumption. eexists.
    split; [reflexivity|].
    pose proof (@binom_fact (Z.to_nat n) (Z.to_nat k) ltac:(lia)) as Hf.
    pose proof (fact_positive (Z.to_nat n)).
    destruct (binom (Z.to_nat n) (Z.to_nat k)); [simpl in Hf; lia | lia].
  - intros Hbad. unfold choose, raise_value_error.
    destruct (Z.ltb_spec n k); [reflexivity|].
    destruct (Z.ltb_spec n 0); [reflexivity | lia].
  - intros [Hk Hn]. unfold choose.
    destruct (Z.ltb_spec n k); [lia|].
    destruct (Z.ltb_spec n 0); [lia|].
    destruct (Z.ltb_spec k 0); [reflexivity | lia].
Qed.

(** ** The array *)

Lemma item_tabulate (r c : nat) (f : nat -> nat -> float) (i j : nat) :
  (i < r)%nat -> (j < c)%nat -> item (tabulate r c f) i j = f i j.
Proof.
  intros Hi Hj. unfold item, tabulate. simpl.
  rewrite (nth_indep _ [] (map (fun j0 => f 0%nat j0) (seq 0 c)))
    by now rewrite length_map, length_seq.
  rewrite (map_nth (fun i0 => map (fun j0 => f i0 j0) (seq 0 c))).
  rewrite seq_nth by assumption. simpl.
  rewrite (nth_indep _ _ (f i 0%nat)) by now rewrite length_map, length_seq.
  rewrite (map_nth (fun j0 => f i j0)).
  now rewrite seq_nth.
Qed.

Lemma item_set_block (a : ndarray) (r0 r1 c0 c1 : Z) (v : float)
    (i j : nat) :
  (i < dim0 a)%nat -> (j < dim1 a)%nat ->
  item (set_block a r0 r1 c0 c1 v) i j =
  if in_slice (Z.of_nat (dim0 a)) r0 r1 i &&
     in_slice (Z.of_nat (dim1 a)) c0 c1 j
  then v else item a i j.
Proof.
  intros Hi Hj. unfold set_block. now rewrite item_tabulate.
Qed.

(** Inside the axis, a slice with bounds that are not negative holds the
    positions between its bounds. *)
Lemma in_slice_plain (len start stop : Z) (i : nat) :
  0 <= start -> 0 <= stop -> Z.of_nat i < len ->
  in_slice len start stop i =
  (start <=? Z.of_nat i) && (Z.of_nat i <? stop).
Proof.
  intros Ha Hb Hi. unfold in_slice, slice_bound.
  destruct (Z.ltb_spec start 0); [lia|].
  destruct (Z.ltb_spec stop 0); [lia|].
  destruct (Z.leb_spec (Z.min start len) (Z.of_nat i));
    destruct (Z.leb_spec start (Z.of_nat i)); try lia;
    destruct (Z.ltb_spec (Z.of_nat i) (Z.min stop len));
    destruct (Z.ltb_spec (Z.of_nat i) stop); try lia; reflexivity.
Qed.

(** A slice that starts at the end of the axis or beyond is empty. *)
Lemma in_slice_beyond (len start stop : Z) (i : nat) :
  0 <= len <= start -> Z.of_nat i < len ->
  in_slice len start stop i = false.
Proof.
  intros Ha Hi. unfold in_slice, slice_bound.
  destruct (Z.ltb_spec start 0); [lia|].
  destruct (Z.leb_spec (Z.min start len) (Z.of_nat i)); [lia | reflexivity].
Qed.

(** ** The loops of [display_pascal] *)

Lemma for_loop_values {A S : Type} (g : A -> S -> S)
    (body : A -> S -> answer S) (xs : list A) :
  (forall x s, In x xs -> body x s = Value (g x s)) ->
  forall s, for_loop xs body s = Value (fold_left (fun s x => g x s) xs s).
Proof.
  induction xs as [|x xs IH]; intros Hbody s; simpl; [reflexivity|].
  rewrite Hbody by now left. cbn [and_next].
  apply IH. intros. apply Hbody. now right.
Qed.

(** A property of the state that every round keeps holds when the loop
    returns. *)
Lemma for_loop_keeps {A S : Type} (P : S -> Prop)
    (body : A -> S -> answer S) (xs : list A) :
  (forall x s s', In x xs -> P s -> body x s = Value s' -> P s') ->
  forall s s', P s -> for_loop xs body s = Value s' -> P s'.
Proof.
  induction xs as [|x xs IH]; intros Hbody s s' Hs; simpl.
  - now intros [= <-].
  - destruct (body x s) as [s1|] eqn:Hb; cbn [and_next]; [|discriminate].
    apply IH.
    + intros. eapply Hbody; eauto. now right.
    + eapply Hbody; eauto. now left.
Qed.

(** X12: the array that [display_pascal] returns has [scale * n_rows] rows
    and as many columns, whatever the other arguments are. *)
Theorem display_pascal_shape (modulus n_rows scale : Z)
    (mode : String.string) (image : ndarray) :
  display_pascal modulus n_rows scale mode = Value image ->
  shape image = (scale * n_rows, scale * n_rows).
Proof.
  unfold display_pascal.
  destruct (negb (scale mod 2 =? 0)); cbn [and_next]; [discriminate|].
  unfold zeros.
  destruct (scale * n_rows <? 0) eqn:Hneg; cbn [orb and_next];
    [discriminate|].
  apply Z.ltb_ge in Hneg.
  apply (for_loop_keeps
           (fun a => shape a = (scale * n_rows, scale * n_rows))).
  - intros n a a' _ Ha.
    apply (for_loop_keeps
             (fun a => shape a = (scale * n_rows, scale * n_rows)));
      [|exact Ha].
    intros k b b' _ Hb.
    destruct (choose n k); cbn [and_next]; [|discriminate].
    destruct (int_mod _ modulus); cbn [and_next]; [|discriminate].
    intros [= <-]. exact Hb.
  - unfold shape. simpl. now rewrite Z2Nat.id.
Qed.

Lemma in_entries (n_rows n k : Z) :
  In (n, k) (entries n_rows) <-> 0 <= n <= n_rows /\ 0 <= k <= n.
Proof.
  unfold entries. rewrite in_flat_map. split.
  - intros (n' & Hn' & Hk). apply in_range in Hn'.
    apply in_map_iff in Hk. destruct Hk as (k' & [= <- <-] & Hk').
    apply in_range in Hk'. lia.
  - intros [Hn Hk]. exists n. split.
    + unfold range. apply in_map_iff. exists (Z.to_nat n).
      split; [lia | apply in_seq; lia].
    + apply in_map_iff. exists k. split; [reflexivity|].
      unfold range. apply in_map_iff. exists (Z.to_nat k).
      split; [lia | apply in_seq; lia].
Qed.

Lemma fold_left_flat_map {A B S : Type} (f : S -> B -> S) (g : A -> list B)
    (xs : list A) :
  forall s,
    fold_left f (flat_map g xs) s =
    fold_left (fun s x => fold_left f (g x) s) xs s.
Proof.
  induction xs as [|x xs IH]; intros s; simpl; [reflexivity|].
  now rewrite fold_left_app, IH.
Qed.

Lemma fold_left_map {A B S : Type} (f : S -> B -> S) (h : A -> B)
    (xs : list A) :
  forall s, fold_left f (map h xs) s = fold_left (fun s x => f s (h x)) xs s.
Proof.
  induction xs as [|x xs IH]; intros s; simpl; [reflexivity | apply IH].
Qed.

Section Triangle.

Variables (modulus n_rows scale : Z) (mode : String.string).

Hypothesis scale_even : scale mod 2 = 0.
Hypothesis size_not_negative : 0 <= scale * n_rows.
Hypothesis modulus_not_zero : modulus <> 0.

(** With an even [scale], a size that is not negative and a [modulus] other
    than 0, no round raises: the function returns the array of zeros with
    the blocks of all the rounds assigned in order. *)
Lemma display_pascal_paints :
  display_pascal modulus n_rows scale mode =
  Value (fold_left (paint_entry modulus n_rows scale mode)
                   (entries n_rows)
                   (tabulate (Z.to_nat (scale * n_rows))
                             (Z.to_nat (scale * n_rows))
                             (fun _ _ => PrimFloat.zero))).
Proof.
  unfold display_pascal. rewrite scale_even. cbn [Z.eqb negb and_next].
  unfold zeros.
  destruct (Z.ltb_spec (scale * n_rows) 0) as [Hneg|_]; [lia|].
  cbn [orb and_next].
  unfold entries. rewrite fold_left_flat_map.
  apply for_loop_values. intros n image Hn. apply in_range in Hn.
  rewrite fold_left_map.
  apply for_loop_values. intros k image' Hk. apply in_range in Hk.
  rewrite choose_binom by lia. cbn [and_next].
  unfold int_mod.
  destruct (Z.eqb_spec modulus 0) as [Hz|_]; [contradiction|].
  cbn [and_next]. reflexivity.
Qed.

Lemma dims_fold_paint (l : list (Z * Z)) :
  forall a,
    dim0 (fold_left (paint_entry modulus n_rows scale mode) l a) = dim0 a /\
    dim1 (fold_left (paint_entry modulus n_rows scale mode) l a) = dim1 a.
Proof.
  induction l as [|[n k] l IH]; intros a; cbn [fold_left]; [now split|].
  destruct (IH (paint_entry modulus n_rows scale mode a (n, k))) as [H0 H1].
  rewrite H0, H1. split; reflexivity.
Qed.

Lemma item_paint_entry (a : ndarray) (nk : Z * Z) (i j : nat) :
  (i < dim0 a)%nat -> (j < dim1 a)%nat -> dim0 a = dim1 a ->
  item (paint_entry modulus n_rows scale mode a nk) i j =
  if entry_covers n_rows scale (dim0 a) nk i j
  then entry_color modulus mode nk else item a i j.
Proof.
  intros Hi Hj Hsq. destruct nk as [n k]. unfold paint_entry, entry_covers.
  rewrite item_set_block by assumption. now rewrite <- Hsq.
Qed.

(** After all the rounds, a position that some round covers holds the colour
    of the covering rounds, when they agree on it; a position that no round
    covers holds what it held before. *)
Lemma item_fold_paint (l : list (Z * Z)) (i j : nat) :
  forall a,
    (i < dim0 a)%nat -> (j < dim1 a)%nat -> dim0 a = dim1 a ->
    ((forall nk, In nk l -> entry_covers n_rows scale (dim0 a) nk i j = false)
     -> item (fold_left (paint_entry modulus n_rows scale mode) l a) i j =
        item a i j) /\
    (forall v,
       (forall nk, In nk l ->
                   entry_covers n_rows scale (dim0 a) nk i j = true ->
                   entry_color modulus mode nk = v) ->
       (exists nk, In nk l /\
                   entry_covers n_rows scale (dim0 a) nk i j = true) ->
       item (fold_left (paint_entry modulus n_rows scale mode) l a) i j = v).
Proof.
  induction l as [|nk l IH] using rev_ind; intros a Hi Hj Hsq.
  - split; [reflexivity|]. intros v _ (nk & [] & _).
  - rewrite fold_left_app. cbn [fold_left].
    destruct (dims_fold_paint l a) as [Hd0 Hd1].
    rewrite item_paint_entry by (rewrite ?Hd0, ?Hd1; assumption).
    rewrite Hd0.
    destruct (IH a Hi Hj Hsq) as [IHnone IHsome].
    split.
    + intros Hnone. rewrite Hnone by (apply in_or_app; right; now left).
      apply IHnone. intros. apply Hnone. apply in_or_app. now left.
    + intros v Hagree (nk' & Hin & Hcov).
      destruct (entry_covers n_rows scale (dim0 a) nk i j) eqn:Hnk.
      * apply Hagree; [apply in_or_app; right; now left | exact Hnk].
      * apply IHsome.
        -- intros. apply Hagree; [apply in_or_app; now left | assumption].
        -- apply in_app_or in Hin. destruct Hin as [Hin | [<- | []]].
           ++ now exists nk'.
           ++ congruence.
Qed.

End Triangle.

(** ** Where the entries are drawn *)

Lemma left_end_half (n_rows scale h n k : Z) :
  scale = 2 * h ->
  left_end n_rows scale n k = h * (n_rows - n - 1 + 2 * k).
Proof.
  intros ->. unfold left_end.
  replace (2 * h * n_rows) with (h * n_rows * 2) by lia.
  replace (2 * h) with (h * 2) by lia.
  rewrite !Z.div_mul by lia. lia.
Qed.

Lemma even_scale_half (scale : Z) :
  scale mod 2 = 0 -> scale = 2 * (scale / 2).
Proof.
  intros Heven. now apply Z.div_exact.
Qed.


Section Drawing.

Variables (modulus n_rows scale : Z) (mode : String.string).

Hypothesis scale_positive : 0 < scale.
Hypothesis scale_even : scale mod 2 = 0.
Hypothesis rows_not_negative : 0 <= n_rows.
Hypothesis modulus_not_zero : modulus <> 0.

Let side : nat := Z.to_nat (scale * n_rows).

Let rendered : ndarray :=
  fold_left (paint_entry modulus n_rows scale mode) (entries n_rows)
            (tabulate side side (fun _ _ => PrimFloat.zero)).

Lemma display_pascal_rendered :
  display_pascal modulus n_rows scale mode = Value rendered.
Proof.
  apply display_pascal_paints; [assumption | nia | assumption].
Qed.

(** For a round of the loops and a position of the array, the slices cover
    the position exactly when it lies in the block of the round. *)
Lemma entry_covers_iff (n k : Z) (i j : nat) :
  0 <= n <= n_rows -> 0 <= k <= n ->
  (i < side)%nat -> (j < side)%nat ->
  entry_covers n_rows scale side (n, k) i j = true <->
  in_entry_block n_rows scale n k i j.
Proof.
  intros Hn Hk Hi Hj. subst side.
  pose proof (@even_scale_half scale scale_even) as Hhalf.
  set (h := scale / 2) in *.
  pose proof (@left_end_half n_rows scale h n k Hhalf) as Hleft.
  unfold entry_covers, in_entry_block. rewrite Hleft.
  rewrite Z2Nat.id by nia.
  destruct (Z.eq_dec n n_rows) as [->|Hne].
  - rewrite in_slice_beyond by nia. cbn [andb]. split; [discriminate|].
    intros [Hrow _]. nia.
  - rewrite !in_slice_plain by nia.
    rewrite !andb_true_iff, !Z.leb_le, !Z.ltb_lt. tauto.
Qed.

(** Two rounds whose blocks share a position are the same round. *)
Lemma entry_block_unique (n k n' k' : Z) (i j : nat) :
  in_entry_block n_rows scale n k i j ->
  in_entry_block n_rows scale n' k' i j ->
  n' = n /\ k' = k.
Proof.
  pose proof (@even_scale_half scale scale_even) as Hhalf.
  set (h := scale / 2) in *.
  unfold in_entry_block.
  rewrite (@left_end_half n_rows scale h n k Hhalf).
  rewrite (@left_end_half n_rows scale h n' k' Hhalf).
  intros [Hr Hc] [Hr' Hc'].
  assert (n' = n) as -> by nia.
  split; [reflexivity | nia].
Qed.

Lemma block_in_array (n k : Z) (i j : nat) :
  0 <= n < n_rows -> 0 <= k <= n ->
  in_entry_block n_rows scale n k i j ->
  (i < side)%nat /\ (j < side)%nat.
Proof.
  intros Hn Hk. subst side.
  pose proof (@even_scale_half scale scale_even) as Hhalf.
  set (h := scale / 2) in *.
  unfold in_entry_block.
  rewrite (@left_end_half n_rows scale h n k Hhalf).
  intros [Hr Hc]. split; nia.
Qed.

(** The position of a block holds the colour of its entry. *)
Lemma item_in_block (n k : Z) (i j : nat) :
  0 <= n < n_rows -> 0 <= k <= n ->
  in_entry_block n_rows scale n k i j ->
  item rendered i j = entry_color modulus mode (n, k).
Proof.
  intros Hn Hk Hblock.
  destruct (@block_in_array n k i j Hn Hk Hblock) as [Hi Hj].
  subst rendered.
  apply (@item_fold_paint modulus n_rows scale mode (entries n_rows) i j
           (tabulate side side (fun _ _ => PrimFloat.zero)) Hi Hj eq_refl).
  - intros [n' k'] Hin Hcov. apply in_entries in Hin.
    cbn [dim0 tabulate] in Hcov.
    apply entry_covers_iff in Hcov; try lia.
    destruct (@entry_block_unique n k n' k' i j Hblock Hcov) as [-> ->].
    reflexivity.
  - exists (n, k). split; [apply in_entries; lia|].
    cbn [dim0 tabulate]. apply entry_covers_iff; (lia || assumption).
Qed.

(** A position in no block holds 0.0. *)
Lemma item_outside_blocks (i j : nat) :
  (i < side)%nat -> (j < side)%nat ->
  (forall n k, 0 <= n < n_rows -> 0 <= k <= n ->
               ~ in_entry_block n_rows scale n k i j) ->
  item rendered i j = PrimFloat.zero.
Proof.
  intros Hi Hj Hnone. subst rendered.
  destruct (@item_fold_paint modulus n_rows scale mode (entries n_rows) i j
              (tabulate side side (fun _ _ => PrimFloat.zero)) Hi Hj eq_refl)
    as [Hkeep _].
  rewrite Hkeep; [now apply item_tabulate|].
  intros [n k] Hin. apply in_entries in Hin.
  cbn [dim0 tabulate].
  destruct (entry_covers n_rows scale side (n, k) i j) eqn:Hcov;
    [|reflexivity].
  exfalso. apply entry_covers_iff in Hcov; try lia.
  apply (Hnone n k); try lia; try assumption.
  destruct Hcov as [Hrow _]. subst side. nia.
Qed.



(** A position of the array holds 0.0 or the colour of one entry. *)
Lemma item_cases (i j : nat) :
  (i < side)%nat -> (j < side)%nat ->
  item rendered i j = PrimFloat.zero \/
  exists n k, 0 <= n < n_rows /\ 0 <= k <= n /\
              item rendered i j = entry_color modulus mode (n, k).
Proof.
  intros Hi Hj.
  destruct (existsb (fun nk => entry_covers n_rows scale side nk i j)
                    (entries n_rows)) eqn:Hcov.
  - right. apply existsb_exists in Hcov.
    destruct Hcov as ([n k] & Hin & Hcov).
    apply in_entries in Hin.
    apply entry_covers_iff in Hcov; try lia.
    assert (n < n_rows) as Hlt
      by (destruct Hcov as [Hrow _]; subst side; nia).
    exists n, k. split; [lia|]. split; [lia|].
    apply item_in_block; (lia || assumption).
  - left. apply item_outside_blocks; try assumption.
    intros n k Hn Hk Hblock.
    assert (existsb (fun nk => entry_covers n_rows scale side nk i j)
                    (entries n_rows) = true) as Htrue.
    { apply existsb_exists. exists (n, k).
      split; [apply in_entries; lia|].
      apply entry_covers_iff; (lia || assumption). }
    congruence.
Qed.

End Drawing.





(** X17: in the mode ["binary"] the picture has two colours: with the same
    arguments, every position of the array holds 0.0 or 1.0. *)
Theorem display_pascal_binary (modulus n_rows scale : Z) (i j : nat) :
  0 < scale -> scale mod 2 = 0 -> modulus <> 0 -> 0 <= n_rows ->
  Z.of_nat i < scale * n_rows -> Z.of_nat j < scale * n_rows ->
  exists image,
    display_pascal modulus n_rows scale binary_mode = Value image /\
    (item image i j = float_of_int 0 \/ item image i j = float_of_int 1).
Proof.
  intros Hpos Heven Hmod Hrows Hi Hj.
  rewrite display_pascal_paints by (assumption || nia).
  eexists. split; [reflexivity|].
  destruct (@item_cases modulus n_rows scale binary_mode Hpos Heven Hrows
              i j)
    as [-> | (n & k & _ & _ & ->)]; try lia.
  - left. reflexivity.
  - unfold entry_color, stored_color.
    change (String.eqb binary_mode binary_mode) with true. cbv iota.
    destruct (_ =? 0); [now left | now right].
Qed.

(** ** The last step *)

Lemma getpixel_flip (im : Image) (x y : nat) :
  well_sized im -> (y < height im)%nat ->
  getpixel (transpose_FLIP_TOP_BOTTOM im) x y =
  getpixel im x (height im - 1 - y).
Proof.
  intros [Hlen _] Hy. unfold getpixel. simpl.
  rewrite rev_nth by lia. rewrite Hlen.
  replace (height im - S y)%nat with (height im - 1 - y)%nat by lia.
  reflexivity.
Qed.

(** X18: the last step alone, [iterate(0, first_call=False)], on a square
    buffer whose pixels are each opaque or fully transparent: the call
    returns, and the pixel at [(x, y)] of the new buffer is the pixel of the
    old buffer in the mirrored row when that one is opaque, and opaque black
    when it is transparent. *)
Theorem last_step_pixel {R : Resampler} {K : Stack} (self : Image_IFS)
    (x y : nat) :
  is_square (image_size self) (image self) ->
  all_pixels binary_alpha (image self) ->
  (x < Z.to_nat (image_size self))%nat ->
  (y < Z.to_nat (image_size self))%nat ->
  exists after,
    iterate 0 false self = Returned after /\
    getpixel (image after) x y =
    let p := getpixel (image self) x (Z.to_nat (image_size self) - 1 - y) in
    if alpha p =? 255 then p else opaque_black.
Proof.
  intros [Hsize Hws] Hall Hx Hy.
  unfold size in Hsize. injection Hsize as Hw Hh.
  assert (0 <= image_size self) as Hn by lia.
  unfold iterate, iterate_within.
  cbn [Z.ltb Z.compare Z.to_nat iterate_passes].
  unfold finalize. rewrite new_square by assumption.
  eexists. split; [reflexivity|]. cbn [image set_image].
  set (n := Z.to_nat (image_size self)) in *.
  rewrite getpixel_flip;
    [| apply well_sized_build | cbn [height paste_mask build]; lia].
  change (height (paste_mask (build n n (fun _ _ => opaque_black))
                             (image self) (image self))) with n.
  unfold paste_mask. cbn [width height build].
  rewrite getpixel_build by lia.
  replace (width (image self)) with n by lia.
  replace (height (image self)) with n by lia.
  destruct (Nat.ltb_spec x n) as [_|]; [|lia].
  destruct (Nat.ltb_spec (n - 1 - y) n) as [_|]; [|lia].
  cbn [andb]. rewrite getpixel_build by lia.
  pose proof (@all_pixels_getpixel binary_alpha (image self) x (n - 1 - y)
                binary_alpha_transparent Hall) as [Hok [Ha | Ha]];
    cbv zeta; rewrite Ha.
  - rewrite blend_transparent_mask; [reflexivity | unfold pixel_ok, byte_range; simpl; lia].
  - now rewrite blend_opaque_mask.
Qed.

(** X19: where the last step does remove all transparency: when every pixel
    of the buffer is opaque or fully transparent and the filter of [resize]
    only copies pixels, a first call [iterate(k)] with [k >= 1] that returns
    leaves a buffer with alpha 255 everywhere. *)
Theorem binary_alpha_ends_opaque {R : Resampler} {K : Stack} (k : Z)
    (self after : Image_IFS) :
  copies_pixels R ->
  all_pixels binary_alpha (image self) ->
  1 <= k ->
  iterate k true self = Returned after ->
  all_pixels opaque (image after).
Proof.
  intros Hcopies Hall Hk Hret.
  exact (@opaque_after_iterate R K Hcopies k self after Hall Hk Hret).
Qed.

(** * The further properties on examples *)

Ltac bytes := unfold pixel_ok, opaque, byte_range; simpl; lia.

Lemma iterate_returns_only_if_witness :
  1 <= Z.of_nat recursion_room /\
  0 <= image_size halved2 /\
  Forall (usable (image halved2) (image_size halved2)
                 (center_origin halved2))
         (functions halved2).
Proof.
  apply (@iterate_returns_only_if NEAREST module_level 1 true halved2
           (set_image halved2 corner_dot2)).
  - lia.
  - vm_compute. reflexivity.
Defined.


Lemma apply_contraction_pixel_witness :
  (~ in_box 1 1 1 1 1 ->
   getpixel centre_dot3 1 1 =
   getpixel (build 3 3 (fun _ _ => transparent)) 1 1) /\
  (in_box 1 1 1 1 1 ->
   alpha (getpixel (build 1 1 (fun _ _ => opaque_white))
                   (Z.to_nat (Z.of_nat 1 - 1)) (Z.to_nat (Z.of_nat 1 - 1)))
   = 0 ->
   getpixel centre_dot3 1 1 =
   getpixel (build 3 3 (fun _ _ => transparent)) 1 1) /\
  (in_box 1 1 1 1 1 ->
   alpha (getpixel (build 1 1 (fun _ _ => opaque_white))
                   (Z.to_nat (Z.of_nat 1 - 1)) (Z.to_nat (Z.of_nat 1 - 1)))
   = 255 ->
   getpixel centre_dot3 1 1 =
   getpixel (build 1 1 (fun _ _ => opaque_white))
            (Z.to_nat (Z.of_nat 1 - 1)) (Z.to_nat (Z.of_nat 1 - 1))).
Proof.
  apply (@apply_contraction_pixel NEAREST 3 false
           (transpose_FLIP_TOP_BOTTOM white3)
           (build 3 3 (fun _ _ => transparent))
           (build 1 1 (fun _ _ => opaque_white))
           centre_dot3 half_half 1 1 1 1%nat 1%nat).
  - split; [reflexivity | split; [reflexivity | repeat constructor]].
  - unfold all_pixels. simpl. repeat constructor; bytes.
  - unfold all_pixels. simpl. repeat constructor; bytes.
  - vm_compute. reflexivity.
  - vm_compute. reflexivity.
  - vm_compute. reflexivity.
  - vm_compute. reflexivity.
  - simpl. lia.
  - simpl. lia.
Defined.

Lemma identity_contraction_reproduces_witness :
  iterate 3 true unit2 = Returned unit2.
Proof.
  apply (@identity_contraction_reproduces NEAREST module_level 3 unit2).
  - split; [simpl; lia|].
    split; [split; [reflexivity | split; [reflexivity | repeat constructor]]|].
    split; [unfold all_pixels; simpl; repeat constructor; bytes|].
    split; reflexivity.
  - lia.
  - simpl. lia.
Defined.

Lemma default_seed_ends_opaque_witness : all_pixels opaque corner_dot2.
Proof.
  apply (@default_seed_ends_opaque NEAREST module_level 1 halved2
           (set_image halved2 corner_dot2)).
  - intros im w h x y. simpl. eauto.
  - reflexivity.
  - lia.
  - vm_compute. reflexivity.
Defined.

Lemma n_sierpinski_without_rows_witness :
  n_sierpinski None 2 (-2) =
  if -2 =? 0 then Raise ZeroDivisionError else Ok renderer2.
Proof.
  apply (@n_sierpinski_without_rows NEAREST None 2 (-2) renderer2).
  - reflexivity.
  - lia.
Defined.

Lemma polygon_ifs_without_vertices_witness :
  polygon_ifs None 2 (-2) true =
  if -2 =? 0 then Raise ZeroDivisionError
  else if true
       then Ok (push_all [(PyFloat (round_ratio 2 (-2)), (PyInt 0, PyInt 0))]
                         centred2)
       else Ok centred2.
Proof.
  apply (@polygon_ifs_without_vertices NEAREST series_math None 2 (-2) true
                                       centred2).
  - reflexivity.
  - lia.
Defined.

Lemma choose_pascal_rule_witness :
  choose 4 0 = Value 1 /\
  choose 4 4 = Value 1 /\
  forall k, 0 <= k < 4 ->
    exists a b,
      choose 4 k = Value a /\ choose 4 (k + 1) = Value b /\
      choose (4 + 1) (k + 1) = Value (a + b).
Proof.
  apply (@choose_pascal_rule 4). lia.
Defined.

Lemma display_pascal_shape_witness : shape ones2 = (2 * 1, 2 * 1).
Proof.
  apply (@display_pascal_shape 2 1 2 binary_mode ones2).
  vm_compute. reflexivity.
Defined.




Lemma display_pascal_binary_witness :
  exists image,
    display_pascal 2 4 2 binary_mode = Value image /\
    (item image 4 1 = float_of_int 0 \/ item image 4 1 = float_of_int 1).
Proof.
  apply (@display_pascal_binary 2 4 2 4%nat 1%nat).
  - lia.
  - reflexivity.
  - lia.
  - lia.
  - simpl. lia.
  - simpl. lia.
Defined.

Lemma last_step_pixel_witness :
  exists after,
    iterate 0 false renderer2 = Returned after /\
    getpixel (image after) 0 1 =
    (if alpha (getpixel (image renderer2) 0
                        (Z.to_nat (image_size renderer2) - 1 - 1)) =? 255
     then getpixel (image renderer2) 0
                   (Z.to_nat (image_size renderer2) - 1 - 1)
     else opaque_black).
Proof.
  apply (@last_step_pixel NEAREST module_level renderer2 0%nat 1%nat).
  - split; [reflexivity | split; [reflexivity | repeat constructor]].
  - unfold all_pixels. simpl.
    repeat constructor; unfold binary_alpha, pixel_ok, byte_range; simpl; lia.
  - simpl. lia.
  - simpl. lia.
Defined.

Lemma binary_alpha_ends_opaque_witness : all_pixels opaque corner_dot2.
Proof.
  apply (@binary_alpha_ends_opaque NEAREST module_level 1 half_seeded2
           (set_image half_seeded2 corner_dot2)).
  - intros im w h x y. simpl. eauto.
  - unfold all_pixels. simpl.
    repeat constructor; unfold binary_alpha, pixel_ok, byte_range; simpl; lia.
  - lia.
  - vm_compute. reflexivity.
Defined.
